(** * Bond cashflow and pricing engine of OVDP_calc ([src/bond_utils.py])

    Shallow embedding of the pricing core:
    - calendar dates are day numbers ([Z]); Python's [(d1 - d2).days] is [d1 - d2]
      and [d - timedelta(days=k)] is [d - k];
    - Python floats are modelled by the reals [R]; [x ** e] on a positive base is
      [Rpower x e]; [round(x, 2)] is [round2] (round half to even at two decimals);
    - a pandas frame of bond records is a list of rows, looked up by ISIN;
    - raised exceptions are the [Err] case of [result]. *)

From Stdlib Require Import ZArith List String Bool Reals Lra Lia Psatz.
From Stdlib Require Import Sorting.Permutation Sorting.Sorted.
Import ListNotations.
Open Scope string_scope.

(* ------------------------------------------------------------------ *)
(** ** Python values and exceptions *)

Inductive py_error : Type :=
| ValueError (msg : string)
| TypeError (msg : string)
| IndexError (msg : string).

Inductive result (A : Type) : Type :=
| Ok (a : A)
| Err (e : py_error).
Arguments Ok {A} a.
Arguments Err {A} e.

Definition bind {A B} (m : result A) (k : A -> result B) : result B :=
  match m with Ok a => k a | Err e => Err e end.

Notation "x <- m ;; k" := (bind m (fun x => k))
  (at level 61, m at next level, right associativity).

(** Boolean comparisons of floats. *)
Definition Rltb (x y : R) : bool := if Rlt_dec x y then true else false.
Definition Rleb (x y : R) : bool := if Rle_dec x y then true else false.
Definition Reqb (x y : R) : bool := if Req_dec_T x y then true else false.

(** The integer nearest to [s], ties to even. *)
Definition round_half_even (s : R) : Z :=
  let n := Int_part s in
  let f := (s - IZR n)%R in
  if Rltb f (1/2) then n
  else if Rltb (1/2) f then (n + 1)%Z
  else if Z.even n then n else (n + 1)%Z.

(** [round(x, 2)]: the nearest multiple of 0.01, ties to even. *)
Definition round2 (x : R) : R := (IZR (round_half_even (x * 100)) / 100)%R.

(** [x ** e] for a positive float base; for a base [<= 0] Python gives [0.0]
    or a complex number instead, which the theorems exclude by hypothesis. *)
Definition py_pow (x e : R) : R := Rpower x e.

(** Python's [sum] over a list of floats (left to right). *)
Definition py_sum (l : list R) : R := fold_left Rplus l 0%R.

(* ------------------------------------------------------------------ *)
(** ** Lists of dates *)

Fixpoint insert_sorted (x : Z) (l : list Z) : list Z :=
  match l with
  | [] => [x]
  | y :: t => if (x <=? y)%Z then x :: y :: t else y :: insert_sorted x t
  end.

(** [sorted(l)] *)
Fixpoint py_sorted (l : list Z) : list Z :=
  match l with
  | [] => []
  | x :: t => insert_sorted x (py_sorted t)
  end.

(** [x in l] *)
Definition py_in (x : Z) (l : list Z) : bool := existsb (Z.eqb x) l.

(** [l.index(x)] (only called on an element of [l]). *)
Fixpoint py_index (x : Z) (l : list Z) : nat :=
  match l with
  | [] => O
  | y :: t => if (x =? y)%Z then O else S (py_index x t)
  end.

(** [[d for d in dates if d >= calc_date]] *)
Definition future_dates (dates : list Z) (calc_date : Z) : list Z :=
  filter (fun d => (calc_date <=? d)%Z) dates.

(* ------------------------------------------------------------------ *)
(** ** Bond records *)

(** One row of the bond directory as [bond_utils] reads it.  The values of the
    columns whose name contains "Термін сплати" are kept already parsed to
    dates (unparseable and missing cells dropped). *)
Record bond_row : Type := mk_bond {
  ISIN : string;
  Par_value : R;
  Currency : string;
  Date_Issue : Z;
  Date_maturity : Z;
  Yield_nominal : option R;
  Coupon_per_year : option Z;
  payment_date_columns : list Z
}.

Definition frame := list bond_row.

(** [_extract_coupon_dates_from_row]: [sorted(set(dates))]. *)
Definition _extract_coupon_dates_from_row (b : bond_row) : list Z :=
  py_sorted (nodup Z.eq_dec (payment_date_columns b)).

Fixpoint fallback_loop (fuel : nat) (issue step d : Z) (dates : list Z) : list Z :=
  match fuel with
  | O => dates
  | S fuel' =>
      if (issue <=? d)%Z
      then fallback_loop fuel' issue step (d - step) (d :: dates)
      else dates
  end.

(** [_fallback_coupon_dates]: [while d >= issue_date: dates.insert(0, d); d -= step].
    The loop runs at most [maturity - issue + 1] times since [step >= 1]. *)
Definition fallback_step (freq : Z) : Z :=
  if (freq =? 2)%Z then 182 else Z.max 1 (365 / freq).

Definition _fallback_coupon_dates (issue_date maturity_date freq : Z) : list Z :=
  fallback_loop (Z.to_nat (maturity_date - issue_date) + 1) issue_date
                (fallback_step freq) maturity_date [].

Record schedule_params : Type := mk_params {
  p_dates : list Z;
  p_par : R;
  p_ccy : string;
  p_coupon_rate : R;
  p_freq : Z;
  p_issue : Z;
  p_maturity : Z
}.

(** [row = df[df["ISIN"] == isin]; b = row.iloc[0]] *)
Definition lookup_row (df : frame) (isin : string) : option bond_row :=
  find (fun b => String.eqb (ISIN b) isin) df.

Definition isin_not_found := "ISIN не знайдено у довіднику.".

(** [_full_coupon_schedule_and_params] *)
Definition _full_coupon_schedule_and_params (df : frame) (isin : string)
  : result schedule_params :=
  match lookup_row df isin with
  | None => Err (ValueError isin_not_found)
  | Some b =>
      let par := Par_value b in
      let ccy := Currency b in
      let issue := Date_Issue b in
      let maturity := Date_maturity b in
      let coupon_rate :=
        match Yield_nominal b with Some v => (v / 100)%R | None => 0%R end in
      let freq := match Coupon_per_year b with Some f => f | None => 0%Z end in
      let dates := _extract_coupon_dates_from_row b in
      let dates :=
        if (List.length dates <? 2)%nat
        then _fallback_coupon_dates issue maturity
               (if (freq =? 0)%Z then 2%Z else freq)
        else dates in
      let dates :=
        if negb (py_in maturity dates) then py_sorted (dates ++ [maturity])
        else dates in
      Ok (mk_params dates par ccy coupon_rate freq issue maturity)
  end.

(* ------------------------------------------------------------------ *)
(** ** Current coupon period (the lookup written out in [accrued_interest],
       [primary_price_from_yield_minfin] and [yields_from_price]) *)

(** [idx = dates.index(next_coupon)]; [prev = dates[idx-1]], or for [idx == 0]
    [next - approx_step] with [approx_step = dates[1]-dates[0]] when there are
    two dates, [max(1, 365 // freq)] otherwise. *)
Definition prev_coupon_of (dates : list Z) (freq next : Z) : Z :=
  match py_index next dates with
  | O =>
      let approx_step :=
        if (2 <=? List.length dates)%nat
        then (nth 1 dates 0 - nth 0 dates 0)%Z
        else Z.max 1 (365 / freq) in
      (next - approx_step)%Z
  | S i => nth i dates 0%Z
  end.

(** [KDP0 = (next - prev).days], replaced by [max(1, 365 // freq)] when [<= 0]. *)
Definition kdp0_of (dates : list Z) (freq next : Z) : Z :=
  let k := (next - prev_coupon_of dates freq next)%Z in
  if (k <=? 0)%Z then Z.max 1 (365 / freq) else k.

(* ------------------------------------------------------------------ *)
(** ** [accrued_interest] *)

Definition accrued_interest (calc_date : Z) (isin : string) (df : frame) : result R :=
  p <- _full_coupon_schedule_and_params df isin ;;
  let dates := p_dates p in
  let coupon_rate := p_coupon_rate p in
  let freq := p_freq p in
  if Rleb coupon_rate 0 || (freq <=? 0)%Z then Ok 0%R
  else
    let SD := (p_par p * coupon_rate / IZR freq)%R in
    match future_dates dates calc_date with
    | [] => Ok 0%R
    | next_coupon :: _ =>
        let prev_coupon := prev_coupon_of dates freq next_coupon in
        let KDP0 := kdp0_of dates freq next_coupon in
        let elapsed := Z.min (Z.max (calc_date - prev_coupon) 0) KDP0 in
        Ok (round2 (SD * (IZR elapsed / IZR KDP0)))
    end.

(* ------------------------------------------------------------------ *)
(** ** Forward pricing *)

(** The returned tuple [(dirty, AI, clean, currency, formula_name)]. *)
Record pricing : Type := mk_pricing {
  pr_dirty : R;
  pr_ai : R;
  pr_clean : R;
  pr_ccy : string;
  pr_formula : string
}.

Definition no_formula := "—".

(** [amount / (1 + y * (days / 365.0))]; Python raises [ZeroDivisionError]
    on a zero denominator, which the theorems exclude by hypothesis. *)
Definition sim_price (amount y : R) (days : Z) : R :=
  (amount / (1 + y * (IZR days / 365)))%R.

(** [days_to_mty <= 182 or (len(future) == 1 and future[0] == maturity)] *)
Definition short_or_last (days_to_mty : Z) (future : list Z) (maturity : Z) : bool :=
  (days_to_mty <=? 182)%Z ||
  ((List.length future =? 1)%nat &&
   match future with d :: _ => (d =? maturity)%Z | [] => false end).

(** [Σ SD/(1+y)^((d - calc_date)/365)] over [future], then [+ par/(1+y)^(days/365)]. *)
Definition ytm_total (future : list Z) (calc_date days_to_mty : Z) (SD par y : R) : R :=
  (fold_left (fun total d => total + SD / py_pow (1 + y) (IZR (d - calc_date) / 365))
             future 0
   + par / py_pow (1 + y) (IZR days_to_mty / 365))%R.

Definition secondary_price_from_yield (calc_date : Z) (isin : string)
    (yield_percent : R) (df : frame) : result pricing :=
  p <- _full_coupon_schedule_and_params df isin ;;
  let dates := p_dates p in
  let par := p_par p in
  let ccy := p_ccy p in
  let cr := p_coupon_rate p in
  let freq := p_freq p in
  let maturity := p_maturity p in
  let y := (yield_percent / 100)%R in
  if (maturity <=? calc_date)%Z then Ok (mk_pricing 0 0 0 ccy no_formula)
  else
    let days_to_mty := (maturity - calc_date)%Z in
    let is_coupon := Rltb 0 cr && (0 <? freq)%Z in
    let SD := if is_coupon then (par * cr / IZR freq)%R else 0%R in
    if negb is_coupon then
      let price := sim_price par y days_to_mty in
      Ok (mk_pricing (round2 price) 0 (round2 price) ccy "SIM")
    else
      let future := future_dates dates calc_date in
      if short_or_last days_to_mty future maturity then
        let price := sim_price (par + SD) y days_to_mty in
        ai <- accrued_interest calc_date isin df ;;
        Ok (mk_pricing (round2 price) ai (round2 (price - ai)) ccy "SIM")
      else
        let total := ytm_total future calc_date days_to_mty SD par y in
        let price := round2 total in
        ai <- accrued_interest calc_date isin df ;;
        Ok (mk_pricing price ai (round2 (price - ai)) ccy "YTM").

(** [Σ_d SD/DF_d (+ par/DF_d when d == maturity)], [DF_d = base ** (DD/KDP0)]. *)
Definition minfin_total (future : list Z) (calc_date maturity KDP0 : Z)
    (SD par base : R) : R :=
  fold_left (fun dirty d =>
      let DD := (d - calc_date)%Z in
      let DF := py_pow base (IZR DD / IZR KDP0) in
      let dirty := (dirty + SD / DF)%R in
      if (d =? maturity)%Z then (dirty + par / DF)%R else dirty)
    future 0%R.

Definition primary_price_from_yield_minfin (calc_date : Z) (isin : string)
    (yield_percent : R) (df : frame) : result pricing :=
  p <- _full_coupon_schedule_and_params df isin ;;
  let dates := p_dates p in
  let par := p_par p in
  let ccy := p_ccy p in
  let cr := p_coupon_rate p in
  let freq := p_freq p in
  let maturity := p_maturity p in
  let y := (yield_percent / 100)%R in
  if (maturity <=? calc_date)%Z then Ok (mk_pricing 0 0 0 ccy no_formula)
  else
    let is_coupon := Rltb 0 cr && (0 <? freq)%Z in
    if negb is_coupon then
      let days := (maturity - calc_date)%Z in
      let price := sim_price par y days in
      Ok (mk_pricing (round2 price) 0 (round2 price) ccy "SIM")
    else
      let SD := (par * cr / IZR freq)%R in
      match future_dates dates calc_date with
      | [] => Ok (mk_pricing 0 0 0 ccy "MinFin")
      | next_c :: _ =>
          let future := future_dates dates calc_date in
          let KDP0 := kdp0_of dates freq next_c in
          let base := (1 + y / IZR freq)%R in
          let dirty := round2 (minfin_total future calc_date maturity KDP0 SD par base) in
          ai <- accrued_interest calc_date isin df ;;
          Ok (mk_pricing dirty ai (round2 (dirty - ai)) ccy "MinFin")
      end.

(** The value each forward pricer hands to [round(., 2)] for its dirty price:
    [price] in the [SIM] branches, [total] in the [YTM] branch of
    [secondary_price_from_yield]; [price] and the Minfin [dirty] before
    [dirty = round(dirty, 2)] in [primary_price_from_yield_minfin]; the
    literal [0.0] in the early returns. *)
Definition secondary_price_unrounded (calc_date : Z) (isin : string)
    (yield_percent : R) (df : frame) : result R :=
  p <- _full_coupon_schedule_and_params df isin ;;
  let dates := p_dates p in
  let par := p_par p in
  let cr := p_coupon_rate p in
  let freq := p_freq p in
  let maturity := p_maturity p in
  let y := (yield_percent / 100)%R in
  if (maturity <=? calc_date)%Z then Ok 0%R
  else
    let days_to_mty := (maturity - calc_date)%Z in
    let is_coupon := Rltb 0 cr && (0 <? freq)%Z in
    let SD := if is_coupon then (par * cr / IZR freq)%R else 0%R in
    if negb is_coupon then Ok (sim_price par y days_to_mty)
    else
      let future := future_dates dates calc_date in
      if short_or_last days_to_mty future maturity
      then Ok (sim_price (par + SD) y days_to_mty)
      else Ok (ytm_total future calc_date days_to_mty SD par y).

Definition primary_price_unrounded (calc_date : Z) (isin : string)
    (yield_percent : R) (df : frame) : result R :=
  p <- _full_coupon_schedule_and_params df isin ;;
  let dates := p_dates p in
  let par := p_par p in
  let cr := p_coupon_rate p in
  let freq := p_freq p in
  let maturity := p_maturity p in
  let y := (yield_percent / 100)%R in
  if (maturity <=? calc_date)%Z then Ok 0%R
  else
    let is_coupon := Rltb 0 cr && (0 <? freq)%Z in
    if negb is_coupon then Ok (sim_price par y (maturity - calc_date))
    else
      let SD := (par * cr / IZR freq)%R in
      match future_dates dates calc_date with
      | [] => Ok 0%R
      | next_c :: _ =>
          let future := future_dates dates calc_date in
          let KDP0 := kdp0_of dates freq next_c in
          let base := (1 + y / IZR freq)%R in
          Ok (minfin_total future calc_date maturity KDP0 SD par base)
      end.

(* ------------------------------------------------------------------ *)
(** ** Root finder ([_bracket], [_bisect], [_solve_root])

    The solver's only effect is calling [func]; a computation returns its value
    together with the list of points at which [func] was called. *)

Definition traced (A : Type) : Type := (A * list R)%type.

Definition tret {A} (a : A) : traced A := (a, []).

Definition tbind {A B} (m : traced A) (k : A -> traced B) : traced B :=
  let (a, l1) := m in let (b, l2) := k a in (b, (l1 ++ l2)%list).

Definition call (func : R -> R) (x : R) : traced R := (func x, [x]).

Notation "x <-- m ;;; k" := (tbind m (fun x => k))
  (at level 61, m at next level, right associativity).

(** [while f_lo * f_hi > 0 and tries < max_tries: hi *= expand; f_hi = func(hi)];
    [n] is the number of tries left. *)
Fixpoint bracket_loop (func : R -> R) (expand : R) (n : nat)
    (lo hi f_lo f_hi : R) : traced (R * R * R * R) :=
  match n with
  | O => tret (lo, hi, f_lo, f_hi)
  | S n' =>
      if Rltb 0 (f_lo * f_hi) then
        let hi := (hi * expand)%R in
        f_hi <-- call func hi ;;;
        bracket_loop func expand n' lo hi f_lo f_hi
      else tret (lo, hi, f_lo, f_hi)
  end.

Definition _bracket (func : R -> R) (lo hi expand : R) (max_tries : nat)
  : traced (R * R * R * R) :=
  f_lo <-- call func lo ;;;
  f_hi <-- call func hi ;;;
  bracket_loop func expand max_tries lo hi f_lo f_hi.

(** The [for _ in range(maxiter)] loop of [_bisect]; [n] iterations left. *)
Fixpoint bisect_loop (func : R -> R) (tol : R) (n : nat)
    (lo hi f_lo f_hi : R) : traced R :=
  match n with
  | O => tret (/2 * (lo + hi))%R
  | S n' =>
      let mid := (/2 * (lo + hi))%R in
      f_mid <-- call func mid ;;;
      if Rltb (Rabs f_mid) tol || Rltb (hi - lo) tol then tret mid
      else if Rltb (f_lo * f_mid) 0 then bisect_loop func tol n' lo mid f_lo f_mid
      else bisect_loop func tol n' mid hi f_mid f_hi
  end.

Definition _bisect (func : R -> R) (lo hi : R) (f_lo f_hi : option R)
    (tol : R) (maxiter : Z) : traced R :=
  f_lo <-- (match f_lo with Some v => tret v | None => call func lo end) ;;;
  f_hi <-- (match f_hi with Some v => tret v | None => call func hi end) ;;;
  if Reqb f_lo 0 then tret lo
  else if Reqb f_hi 0 then tret hi
  else bisect_loop func tol (Z.to_nat maxiter) lo hi f_lo f_hi.

Definition default_lo : R := (- (99 / 100))%R.
Definition default_hi : R := 5%R.
Definition default_tol : R := (/ IZR (10 ^ 12))%R.

(** [_solve_root]; [_bracket] is called with its defaults [expand=1.5, max_tries=25]. *)
Definition _solve_root (func : R -> R) (lo hi tol : R) (maxiter : Z) : traced R :=
  b <-- _bracket func lo hi (3 / 2) 25 ;;;
  let '(lo, hi, f_lo, f_hi) := b in
  if Rltb 0 (f_lo * f_hi) then tret (/2 * (lo + hi))%R
  else _bisect func lo hi (Some f_lo) (Some f_hi) tol maxiter.

(** Keyword arguments of a Python call. *)
Inductive pyval : Type :=
| PyInt (z : Z)
| PyFloat (r : R).

(** Argument binding of [_solve_root(func, lo, hi, **kwargs)]: the keywords
    left after the three positional arguments are [tol] and [maxiter]; any
    other keyword raises [TypeError] before the body runs. *)
Definition solve_root_params : list string := ["tol"; "maxiter"].

Definition kw_lookup (k : string) (kwargs : list (string * pyval)) : option pyval :=
  match find (fun kv => String.eqb (fst kv) k) kwargs with
  | Some kv => Some (snd kv)
  | None => None
  end.

Definition call_solve_root (func : R -> R) (lo hi : R)
    (kwargs : list (string * pyval)) : result (traced R) :=
  match find (fun kv => negb (existsb (String.eqb (fst kv)) solve_root_params)) kwargs with
  | Some kv =>
      Err (TypeError ("_solve_root() got an unexpected keyword argument '"
                      ++ fst kv ++ "'"))
  | None =>
      let tol := match kw_lookup "tol" kwargs with
                 | Some (PyFloat r) => r | Some (PyInt z) => IZR z | None => default_tol
                 end in
      match kw_lookup "maxiter" kwargs with
      | Some (PyFloat _) =>
          Err (TypeError "'float' object cannot be interpreted as an integer")
      | Some (PyInt m) => Ok (_solve_root func lo hi tol m)
      | None => Ok (_solve_root func lo hi tol 200)
      end
  end.

(* ------------------------------------------------------------------ *)
(** ** [yields_from_price] *)

Record yields : Type := mk_yields {
  Secondary_yield : R;
  Secondary_formula : string;
  Primary_yield : R;
  Primary_formula : string;
  y_Currency : string
}.

Definition calc_after_maturity := "Дата розрахунку ≥ дати погашення.".

(** [for _ in range(n): if f(lo) * f(hi) < 0: break; hi *= 1.5] *)
Fixpoint widen_hi (f : R -> R) (lo hi : R) (n : nat) : R :=
  match n with
  | O => hi
  | S n' => if Rltb (f lo * f hi) 0 then hi else widen_hi f lo (hi * (3 / 2)) n'
  end.

(** [((par + SD) / price_dirty - 1.0) * (365.0 / days_to_mty) * 100.0] *)
Definition sim_yield (amount price_dirty : R) (days_to_mty : Z) : R :=
  ((amount / price_dirty - 1) * (365 / IZR days_to_mty) * 100)%R.

Definition pv_diff_y (future : list Z) (calc_date days_to_mty : Z)
    (SD par price_dirty : R) (y : R) : R :=
  let y := Rmax y (- (9999 / 10000)) in
  (ytm_total future calc_date days_to_mty SD par y - price_dirty)%R.

Definition pv_diff_minfin (future : list Z) (calc_date maturity KDP0 : Z)
    (freq : Z) (SD par price_dirty : R) (y : R) : R :=
  (minfin_total future calc_date maturity KDP0 SD par (1 + y / IZR freq) - price_dirty)%R.

(** The keyword arguments written at both solver calls. *)
Definition solver_kwargs : list (string * pyval) :=
  [("maxiter", PyInt 200); ("xtol", PyFloat default_tol)].

Definition yields_from_price (calc_date : Z) (isin : string) (price_dirty : R)
    (df : frame) : result yields :=
  p <- _full_coupon_schedule_and_params df isin ;;
  let dates := p_dates p in
  let par := p_par p in
  let ccy := p_ccy p in
  let cr := p_coupon_rate p in
  let freq := p_freq p in
  let maturity := p_maturity p in
  if (maturity <=? calc_date)%Z then Err (ValueError calc_after_maturity)
  else
    let days_to_mty := (maturity - calc_date)%Z in
    let is_coupon := Rltb 0 cr && (0 <? freq)%Z in
    let SD := if is_coupon then (par * cr / IZR freq)%R else 0%R in
    if negb is_coupon then
      let y_sim := round2 (sim_yield par price_dirty days_to_mty) in
      Ok (mk_yields y_sim "SIM" y_sim "SIM" ccy)
    else
      let future := future_dates dates calc_date in
      let '(sec_y, sec_f) :=
        if short_or_last days_to_mty future maturity then
          (round2 (sim_yield (par + SD) price_dirty days_to_mty), "SIM")
        else
          let f := pv_diff_y future calc_date days_to_mty SD par price_dirty in
          let hi := widen_hi f default_lo default_hi 20 in
          match call_solve_root f default_lo hi solver_kwargs with
          | Ok r => (round2 (fst r * 100), "YTM")
          | Err _ => (round2 (sim_yield (par + SD) price_dirty days_to_mty),
                      "SIM (fallback)")
          end in
      match future with
      | [] => Err (IndexError "list index out of range")
      | next_c :: _ =>
          let KDP0 := kdp0_of dates freq next_c in
          let g := pv_diff_minfin future calc_date maturity KDP0 freq SD par price_dirty in
          let hi := widen_hi g default_lo default_hi 20 in
          let '(prim_y, prim_f) :=
            match call_solve_root g default_lo hi solver_kwargs with
            | Ok r => (round2 (fst r * 100), "MinFin")
            | Err _ => (round2 (sim_yield (par + SD) price_dirty days_to_mty),
                        "SIM (fallback)")
            end in
          Ok (mk_yields sec_y sec_f prim_y prim_f ccy)
      end.

(* ------------------------------------------------------------------ *)
(** ** Trade outcome ([coupons_between], [trade_outcome])

    Dates in the output are kept as day numbers ([strftime] only formats them). *)

Definition coupons_between (df : frame) (isin : string) (start_date end_date : Z)
  : result (list (Z * R) * string) :=
  p <- _full_coupon_schedule_and_params df isin ;;
  let cr := p_coupon_rate p in
  let freq := p_freq p in
  if Rleb cr 0 || (freq <=? 0)%Z then Ok ([], p_ccy p)
  else
    let SD := round2 (p_par p * cr / IZR freq) in
    let out := map (fun d => (d, SD))
                   (filter (fun d => (start_date <? d)%Z && (d <=? end_date)%Z)
                           (p_dates p)) in
    Ok (out, p_ccy p).

Record trade : Type := mk_trade {
  t_ISIN : string;
  t_Currency : string;
  Buy_date : Z;
  Buy_yield_percent : R;
  Buy_price_dirty : R;
  Sell_date : Z;
  Sell_yield_percent : R;
  Sell_price_dirty : R;
  Coupons_received : list (Z * R);
  Coupons_total : R;
  Profit_abs : R;
  Profit_ann_pct : option R;
  Days_held : Z
}.

Definition sell_before_buy := "Дата продажу має бути пізніше дати покупки.".

Definition trade_outcome (isin : string) (buy_date : Z) (buy_yield_percent : R)
    (sell_date : Z) (sell_yield_percent : R) (df : frame) : result trade :=
  if (sell_date <=? buy_date)%Z then Err (ValueError sell_before_buy)
  else
    b <- secondary_price_from_yield buy_date isin buy_yield_percent df ;;
    s <- secondary_price_from_yield sell_date isin sell_yield_percent df ;;
    c <- coupons_between df isin buy_date sell_date ;;
    let buy_dirty := pr_dirty b in
    let ccy := pr_ccy b in
    let sell_dirty := pr_dirty s in
    let cps := fst c in
    let coupons_total := round2 (py_sum (map snd cps)) in
    let profit_abs := round2 (sell_dirty + coupons_total - buy_dirty) in
    let days_held := (sell_date - buy_date)%Z in
    let profit_ann_pct :=
      if (0 <? days_held)%Z
      then Some (round2 (profit_abs / buy_dirty * (365 / IZR days_held) * 100))
      else None in
    Ok (mk_trade isin ccy buy_date buy_yield_percent buy_dirty
                 sell_date sell_yield_percent sell_dirty
                 cps coupons_total profit_abs profit_ann_pct days_held).

(* ------------------------------------------------------------------ *)
(** ** [build_cashflow_schedule]

    One output row per cashflow; the [date] column is kept as a day number
    ([strftime] only formats it). *)

Definition coupon_type := "Купон".
Definition redemption_type := "Погашення номіналу".

Record cf_row : Type := mk_cf {
  cf_date : Z;
  cf_amount : R;
  cf_type : string;
  cf_currency : string
}.

(** The sort key [(r["date"], 1 if r["type"] != "Купон" else 0)]. *)
Definition cf_key (r : cf_row) : Z * Z :=
  (cf_date r, if String.eqb (cf_type r) coupon_type then 0%Z else 1%Z).

(** Lexicographic [<] on the key tuples. *)
Definition key_ltb (a b : Z * Z) : bool :=
  (fst a <? fst b)%Z || ((fst a =? fst b)%Z && (snd a <? snd b)%Z).

(** [rows.sort(key=...)]: Python's sort is stable, so the result is the
    insertion sort that puts each row after every earlier row whose key is not
    greater. *)
Fixpoint insert_by_key (x : cf_row) (l : list cf_row) : list cf_row :=
  match l with
  | [] => [x]
  | y :: t => if key_ltb (cf_key x) (cf_key y) then x :: y :: t
              else y :: insert_by_key x t
  end.

Definition sort_by_key (l : list cf_row) : list cf_row :=
  fold_left (fun acc x => insert_by_key x acc) l [].

(** Equality on the subset [["date","type","amount","currency"]]. *)
Definition cf_same (a b : cf_row) : bool :=
  (cf_date a =? cf_date b)%Z && String.eqb (cf_type a) (cf_type b) &&
  Reqb (cf_amount a) (cf_amount b) && String.eqb (cf_currency a) (cf_currency b).

(** [drop_duplicates(subset=...)] keeps the first row of each group. *)
Fixpoint drop_dup_loop (seen : list cf_row) (l : list cf_row) : list cf_row :=
  match l with
  | [] => []
  | x :: t => if existsb (cf_same x) seen then drop_dup_loop seen t
              else x :: drop_dup_loop (x :: seen) t
  end.

Definition drop_duplicates (l : list cf_row) : list cf_row := drop_dup_loop [] l.

(** [from_date=None] is [None]. *)
Definition build_cashflow_schedule (df : frame) (isin : string) (from_date : option Z)
  : result (list cf_row * R * string) :=
  p <- _full_coupon_schedule_and_params df isin ;;
  let par := p_par p in
  let ccy := p_ccy p in
  let coupon_rate := p_coupon_rate p in
  let freq := p_freq p in
  let maturity := p_maturity p in
  let coupon_amount :=
    if Rltb 0 coupon_rate && (0 <? freq)%Z
    then round2 (par * coupon_rate / IZR (Z.max 1 freq)) else 0%R in
  let dates :=
    match from_date with
    | Some f => filter (fun d => (f <=? d)%Z) (p_dates p)
    | None => p_dates p
    end in
  let rows :=
    ((if Rltb 0 coupon_amount
      then map (fun d => mk_cf d coupon_amount coupon_type ccy) dates
      else [])
     ++ [mk_cf maturity par redemption_type ccy])%list in
  Ok (drop_duplicates (sort_by_key rows), coupon_rate, ccy).

(* ================================================================== *)
(** * Sample directory *)

(** A semiannual 16% bond of par 1000 issued on day 20240 (2025-06-01),
    maturing on day 20970 (2027-06-01). *)
Definition bond_2027 : bond_row :=
  mk_bond "UA4000000001" 1000 "UAH" 20240 20970 (Some 16%R) (Some 2%Z) [].

(** The same bond paying quarterly, issued a year before maturity. *)
Definition bond_2027_q : bond_row :=
  mk_bond "UA4000000002" 1000 "UAH" 20606 20970 (Some 16%R) (Some 4%Z) [].

(** A discount (zero-coupon) bond of par 1000 maturing on day 20970. *)
Definition bill_2027 : bond_row :=
  mk_bond "UA4000000003" 1000 "UAH" 20240 20970 None (Some 2%Z) [].

(** The semiannual bond with two payment-date columns filled in the row. *)
Definition bond_2027_rowdates : bond_row :=
  mk_bond "UA4000000004" 1000 "UAH" 20240 20970 (Some 16%R) (Some 2%Z)
          [20870; 20920]%Z.

Definition sample_df : frame :=
  [bond_2027; bond_2027_q; bill_2027; bond_2027_rowdates].

(* ================================================================== *)
(** * General lemmas *)

Lemma Rltb_true x y : (x < y)%R -> Rltb x y = true.
Proof. intros H; unfold Rltb; destruct (Rlt_dec x y); [reflexivity | contradiction]. Qed.

Lemma Rltb_false x y : (y <= x)%R -> Rltb x y = false.
Proof. intros H; unfold Rltb; destruct (Rlt_dec x y); [lra | reflexivity]. Qed.

Lemma Rleb_true x y : (x <= y)%R -> Rleb x y = true.
Proof. intros H; unfold Rleb; destruct (Rle_dec x y); [reflexivity | contradiction]. Qed.

Lemma Rleb_false x y : (y < x)%R -> Rleb x y = false.
Proof. intros H; unfold Rleb; destruct (Rle_dec x y); [lra | reflexivity]. Qed.

Lemma Reqb_true x y : x = y -> Reqb x y = true.
Proof. intros H; unfold Reqb; destruct (Req_dec_T x y); [reflexivity | contradiction]. Qed.

Lemma Reqb_false x y : x <> y -> Reqb x y = false.
Proof. intros H; unfold Reqb; destruct (Req_dec_T x y); [contradiction | reflexivity]. Qed.

Lemma Int_part_IZR (k : Z) : Int_part (IZR k) = k.
Proof. symmetry; apply Int_part_spec; lra. Qed.

Lemma Int_part_le x y : (x <= y)%R -> (Int_part x <= Int_part y)%Z.
Proof.
  intros H.
  destruct (base_Int_part x) as [Hx1 Hx2].
  destruct (base_Int_part y) as [Hy1 Hy2].
  assert (IZR (Int_part x) < IZR (Int_part y + 1))%R as Hlt
    by (rewrite plus_IZR; lra).
  apply lt_IZR in Hlt; lia.
Qed.

(** [round_half_even s] is [⌊s⌋] or [⌊s⌋ + 1], the latter only from the upper half. *)
Lemma round_half_even_cases s :
  (round_half_even s = Int_part s /\ (s - IZR (Int_part s) <= 1/2)%R) \/
  (round_half_even s = (Int_part s + 1)%Z /\ (1/2 <= s - IZR (Int_part s))%R).
Proof.
  unfold round_half_even.
  destruct (Rlt_dec (s - IZR (Int_part s)) (1/2)) as [H1|H1].
  - rewrite (Rltb_true _ _ H1); left; split; [reflexivity | lra].
  - rewrite (Rltb_false _ _ (Rnot_lt_le _ _ H1)).
    destruct (Rlt_dec (1/2) (s - IZR (Int_part s))) as [H2|H2].
    + rewrite (Rltb_true _ _ H2); right; split; [reflexivity | lra].
    + rewrite (Rltb_false _ _ (Rnot_lt_le _ _ H2)).
      destruct (Z.even (Int_part s)); [left | right]; split; auto; lra.
Qed.

Lemma round_half_even_IZR (k : Z) : round_half_even (IZR k) = k.
Proof.
  unfold round_half_even; rewrite Int_part_IZR.
  rewrite Rltb_true by lra; reflexivity.
Qed.

Lemma round2_cents (k : Z) : round2 (IZR k / 100) = (IZR k / 100)%R.
Proof.
  unfold round2.
  replace (IZR k / 100 * 100)%R with (IZR k) by field.
  rewrite round_half_even_IZR; reflexivity.
Qed.

Lemma round2_0 : round2 0 = 0%R.
Proof.
  replace 0%R with (IZR 0 / 100)%R at 1 by (simpl; field).
  rewrite round2_cents; simpl; field.
Qed.

Lemma round2_close x : (Rabs (round2 x - x) <= 1/200)%R.
Proof.
  unfold round2.
  destruct (base_Int_part (x * 100)) as [H1 H2].
  destruct (round_half_even_cases (x * 100)) as [[E H]|[E H]]; rewrite E;
    [| rewrite plus_IZR]; apply Rabs_le; split;
    apply (Rmult_le_reg_r 100); try lra;
    unfold Rdiv; try rewrite Rmult_plus_distr_r;
    repeat rewrite Rmult_minus_distr_r; rewrite Rmult_assoc, Rinv_l by lra; lra.
Qed.

Lemma round_half_even_le s t :
  (s <= t)%R -> (round_half_even s <= round_half_even t)%Z.
Proof.
  intros H.
  pose proof (Int_part_le s t H) as Hn.
  destruct (base_Int_part s) as [Hs1 Hs2].
  destruct (base_Int_part t) as [Ht1 Ht2].
  destruct (Z.eq_dec (Int_part s) (Int_part t)) as [Heq|Hne].
  - unfold round_half_even; rewrite <- Heq.
    set (n := Int_part s) in *.
    destruct (Rlt_dec (s - IZR n) (1/2)) as [A|A].
    + rewrite (Rltb_true _ _ A).
      destruct (Rltb (t - IZR n) (1/2)); [lia|].
      destruct (Rltb (1/2) (t - IZR n)); [lia|].
      destruct (Z.even n); lia.
    + rewrite (Rltb_false _ _ (Rnot_lt_le _ _ A)).
      rewrite (Rltb_false (t - IZR n) (1/2)) by lra.
      destruct (Rlt_dec (1/2) (s - IZR n)) as [B|B].
      * rewrite (Rltb_true _ _ B).
        rewrite (Rltb_true (1/2) (t - IZR n)) by lra; lia.
      * rewrite (Rltb_false _ _ (Rnot_lt_le _ _ B)).
        destruct (Rltb (1/2) (t - IZR n)); [destruct (Z.even n); lia|lia].
  - destruct (round_half_even_cases s) as [[E _]|[E _]];
    destruct (round_half_even_cases t) as [[F _]|[F _]]; rewrite E, F; lia.
Qed.

Lemma round2_le x y : (x <= y)%R -> (round2 x <= round2 y)%R.
Proof.
  intros H; unfold round2.
  apply Rmult_le_compat_r; [lra|].
  apply IZR_le, round_half_even_le; lra.
Qed.

(** ** Sorting and the schedule *)

Lemma insert_sorted_perm x l : Permutation (insert_sorted x l) (x :: l).
Proof.
  induction l as [|y t IH]; simpl; [reflexivity|].
  destruct (x <=? y)%Z; [reflexivity|].
  rewrite IH; apply perm_swap.
Qed.

Lemma py_sorted_perm l : Permutation (py_sorted l) l.
Proof.
  induction l as [|x t IH]; simpl; [reflexivity|].
  rewrite insert_sorted_perm, IH; reflexivity.
Qed.

Lemma insert_sorted_sorted x l : Sorted Z.le l -> Sorted Z.le (insert_sorted x l).
Proof.
  induction 1 as [|y t Ht IH Hd]; simpl; [repeat constructor|].
  destruct (Z.leb_spec x y).
  - constructor; [constructor; assumption | constructor; assumption].
  - constructor; [assumption|].
    destruct t as [|z t]; simpl.
    + constructor; lia.
    + inversion Hd; subst. destruct (x <=? z)%Z; constructor; lia.
Qed.

Lemma py_sorted_sorted l : Sorted Z.le (py_sorted l).
Proof. induction l; simpl; [constructor | apply insert_sorted_sorted; assumption]. Qed.

Lemma sorted_le_nodup_lt l : Sorted Z.le l -> NoDup l -> Sorted Z.lt l.
Proof.
  induction 1 as [|a t Ht IH Hd]; intros Hn; [constructor|].
  inversion Hn as [|? ? Hnot Hn']; subst.
  constructor; [apply IH; assumption|].
  destruct t as [|b t]; constructor.
  inversion Hd; subst.
  assert (a <> b) by (intros ->; apply Hnot; left; reflexivity). lia.
Qed.

Lemma py_sorted_lt l : NoDup l -> Sorted Z.lt (py_sorted l).
Proof.
  intros Hn; apply sorted_le_nodup_lt; [apply py_sorted_sorted|].
  apply (Permutation_NoDup (Permutation_sym (py_sorted_perm l))); assumption.
Qed.

Lemma fallback_step_pos f : (1 <= fallback_step f)%Z.
Proof. unfold fallback_step; destruct (f =? 2)%Z; lia. Qed.

Lemma fallback_loop_sorted fuel issue step d acc :
  (1 <= step)%Z -> Sorted Z.lt acc -> HdRel Z.lt d acc ->
  Sorted Z.lt (fallback_loop fuel issue step d acc).
Proof.
  revert d acc; induction fuel as [|fuel IH]; intros d acc Hs Hacc Hd; simpl;
    [assumption|].
  destruct (issue <=? d)%Z; [|assumption].
  apply IH; [assumption | constructor; assumption | constructor; lia].
Qed.

Lemma fallback_sorted issue maturity freq :
  Sorted Z.lt (_fallback_coupon_dates issue maturity freq).
Proof.
  unfold _fallback_coupon_dates; apply fallback_loop_sorted;
    [apply fallback_step_pos | constructor | constructor].
Qed.

Lemma py_in_In x l : py_in x l = true <-> In x l.
Proof.
  unfold py_in; rewrite existsb_exists; split.
  - intros [y [Hy E]]; apply Z.eqb_eq in E; subst; assumption.
  - intros H; exists x; split; [assumption | apply Z.eqb_refl].
Qed.

Lemma sorted_lt_nodup l : Sorted Z.lt l -> NoDup l.
Proof.
  intros H; apply Sorted_StronglySorted in H; [|intros ? ? ?; lia].
  induction H as [|a t Ht IH Hall]; constructor; [|assumption].
  intros Hin; rewrite Forall_forall in Hall; specialize (Hall a Hin); lia.
Qed.

(** The schedule [_full_coupon_schedule_and_params] returns is strictly
    ascending and contains the maturity date. *)
Lemma full_dates_ok df isin p :
  _full_coupon_schedule_and_params df isin = Ok p ->
  Sorted Z.lt (p_dates p) /\ In (p_maturity p) (p_dates p).
Proof.
  unfold _full_coupon_schedule_and_params.
  destruct (lookup_row df isin) as [b|]; [|discriminate].
  intros E; injection E as <-; simpl.
  set (d0 := if (List.length (_extract_coupon_dates_from_row b) <? 2)%nat then _ else _).
  assert (Hd0 : Sorted Z.lt d0).
  { unfold d0; destruct (_ <? 2)%nat;
      [apply fallback_sorted | apply py_sorted_lt, NoDup_nodup]. }
  destruct (py_in (Date_maturity b) d0) eqn:Hin; simpl.
  - split; [assumption | apply py_in_In; assumption].
  - split.
    + apply py_sorted_lt.
      apply NoDup_app; [apply sorted_lt_nodup; assumption | constructor; [intros []|constructor] |].
      intros x Hx [<-|[]]. apply (proj2 (py_in_In _ _)) in Hx; congruence.
    + apply (Permutation_in _ (Permutation_sym (py_sorted_perm _))).
      apply in_or_app; right; left; reflexivity.
Qed.

(** ** Branches of the forward pricers *)

Lemma secondary_matured df isin calc_date yp p :
  _full_coupon_schedule_and_params df isin = Ok p ->
  (p_maturity p <= calc_date)%Z ->
  secondary_price_from_yield calc_date isin yp df
  = Ok (mk_pricing 0 0 0 (p_ccy p) no_formula).
Proof.
  intros H Hm; unfold secondary_price_from_yield; rewrite H; cbn [bind].
  rewrite (proj2 (Z.leb_le _ _) Hm); reflexivity.
Qed.

Lemma primary_matured df isin calc_date yp p :
  _full_coupon_schedule_and_params df isin = Ok p ->
  (p_maturity p <= calc_date)%Z ->
  primary_price_from_yield_minfin calc_date isin yp df
  = Ok (mk_pricing 0 0 0 (p_ccy p) no_formula).
Proof.
  intros H Hm; unfold primary_price_from_yield_minfin; rewrite H; cbn [bind].
  rewrite (proj2 (Z.leb_le _ _) Hm); reflexivity.
Qed.

Lemma full_bond_2027 :
  _full_coupon_schedule_and_params sample_df "UA4000000001"
  = Ok (mk_params [20242; 20424; 20606; 20788; 20970]%Z 1000 "UAH" (16 / 100) 2
                  20240 20970).
Proof. reflexivity. Qed.

Lemma full_bond_2027_q :
  _full_coupon_schedule_and_params sample_df "UA4000000002"
  = Ok (mk_params [20606; 20697; 20788; 20879; 20970]%Z 1000 "UAH" (16 / 100) 4
                  20606 20970).
Proof. reflexivity. Qed.

Lemma full_bond_2027_rowdates :
  _full_coupon_schedule_and_params sample_df "UA4000000004"
  = Ok (mk_params [20870; 20920; 20970]%Z 1000 "UAH" (16 / 100) 2 20240 20970).
Proof. reflexivity. Qed.

(* ================================================================== *)
(** * Claims *)

(** ** C10 *)

(** C10: for every bond found in the directory and every yield, pricing on or
    after the maturity date raises nothing: [secondary_price_from_yield] and
    [primary_price_from_yield_minfin] both return dirty price 0, accrued
    interest 0, clean price 0, the bond's currency and the label "—". *)
Theorem matured_pricing_sentinel df isin calc_date yp p :
  _full_coupon_schedule_and_params df isin = Ok p ->
  (p_maturity p <= calc_date)%Z ->
  secondary_price_from_yield calc_date isin yp df
    = Ok (mk_pricing 0 0 0 (p_ccy p) "—") /\
  primary_price_from_yield_minfin calc_date isin yp df
    = Ok (mk_pricing 0 0 0 (p_ccy p) "—").
Proof.
  intros H Hm; split;
    [apply (secondary_matured _ _ _ _ _ H Hm) | apply (primary_matured _ _ _ _ _ H Hm)].
Qed.

Lemma matured_pricing_sentinel_witness :
  (20970 <= 21000)%Z /\
  secondary_price_from_yield 21000 "UA4000000001" 16 sample_df
    = Ok (mk_pricing 0 0 0 "UAH" "—") /\
  primary_price_from_yield_minfin 21000 "UA4000000001" 16 sample_df
    = Ok (mk_pricing 0 0 0 "UAH" "—").
Proof.
  split; [lia|].
  exact (matured_pricing_sentinel sample_df "UA4000000001" 21000 16 _
           full_bond_2027 ltac:(simpl; lia)).
Defined.

(** ** C3 *)

(** C3 (counterexample): pricing the bond on its maturity date is not rejected;
    both forward pricers return a value. *)
Lemma invalid_date_forward_not_rejected :
  secondary_price_from_yield 20970 "UA4000000001" 16 sample_df
    = Ok (mk_pricing 0 0 0 "UAH" "—") /\
  primary_price_from_yield_minfin 20970 "UA4000000001" 16 sample_df
    = Ok (mk_pricing 0 0 0 "UAH" "—").
Proof. split; reflexivity. Qed.

(** C3 (amended): [yields_from_price] raises [ValueError] when the reference
    date is on or after maturity, [trade_outcome] raises [ValueError] when the
    sell date is on or before the buy date (before any pricing), while
    [secondary_price_from_yield] and [primary_price_from_yield_minfin] do not
    raise but return the zero result with label "—". *)
Theorem invalid_date_handling df isin calc_date price yp p
    buy_date buy_y sell_date sell_y :
  _full_coupon_schedule_and_params df isin = Ok p ->
  (p_maturity p <= calc_date)%Z ->
  (sell_date <= buy_date)%Z ->
  yields_from_price calc_date isin price df = Err (ValueError calc_after_maturity) /\
  trade_outcome isin buy_date buy_y sell_date sell_y df = Err (ValueError sell_before_buy) /\
  secondary_price_from_yield calc_date isin yp df
    = Ok (mk_pricing 0 0 0 (p_ccy p) no_formula) /\
  primary_price_from_yield_minfin calc_date isin yp df
    = Ok (mk_pricing 0 0 0 (p_ccy p) no_formula).
Proof.
  intros H Hm Hs; split; [|split; [|split]].
  - unfold yields_from_price; rewrite H; cbn [bind].
    rewrite (proj2 (Z.leb_le _ _) Hm); reflexivity.
  - unfold trade_outcome; rewrite (proj2 (Z.leb_le _ _) Hs); reflexivity.
  - apply (secondary_matured _ _ _ _ _ H Hm).
  - apply (primary_matured _ _ _ _ _ H Hm).
Qed.

Lemma invalid_date_handling_witness :
  yields_from_price 20970 "UA4000000001" 950 sample_df
    = Err (ValueError calc_after_maturity) /\
  trade_outcome "UA4000000001" 20500 10 20400 10 sample_df
    = Err (ValueError sell_before_buy) /\
  secondary_price_from_yield 20970 "UA4000000001" 16 sample_df
    = Ok (mk_pricing 0 0 0 "UAH" no_formula) /\
  primary_price_from_yield_minfin 20970 "UA4000000001" 16 sample_df
    = Ok (mk_pricing 0 0 0 "UAH" no_formula).
Proof.
  exact (invalid_date_handling sample_df "UA4000000001" 20970 950 16 _
           20500 10 20400 10 full_bond_2027 ltac:(simpl; lia) ltac:(lia)).
Defined.

Lemma add_maturity_members M l x :
  In x (if negb (py_in M l) then py_sorted (l ++ [M]) else l) <-> x = M \/ In x l.
Proof.
  destruct (py_in M l) eqn:E; simpl.
  - apply py_in_In in E; split; [right; assumption|].
    intros [->|H]; assumption.
  - split.
    + intros H; apply (Permutation_in _ (py_sorted_perm _)) in H.
      apply in_app_or in H as [H|[<-|[]]]; [right | left]; auto.
    + intros H; apply (Permutation_in _ (Permutation_sym (py_sorted_perm _))).
      apply in_or_app; destruct H as [->|H]; [right; left; reflexivity | left; exact H].
Qed.

Lemma extract_members b x :
  In x (_extract_coupon_dates_from_row b) <-> In x (payment_date_columns b).
Proof.
  unfold _extract_coupon_dates_from_row; split; intros H.
  - apply (Permutation_in _ (py_sorted_perm _)), nodup_In in H; exact H.
  - apply (Permutation_in _ (Permutation_sym (py_sorted_perm _))), nodup_In; exact H.
Qed.

(** ** C4 *)

Lemma fallback_loop_grid fuel issue step d acc M :
  (0 < step)%Z -> (d <= M)%Z -> ((M - d) mod step = 0)%Z ->
  (forall x, In x acc -> (x <= M)%Z /\ ((M - x) mod step = 0)%Z) ->
  forall x, In x (fallback_loop fuel issue step d acc) ->
            (x <= M)%Z /\ ((M - x) mod step = 0)%Z.
Proof.
  revert d acc; induction fuel as [|fuel IH]; intros d acc Hs Hd Hm Hacc; simpl;
    [assumption|].
  destruct (issue <=? d)%Z; [|assumption].
  apply IH; [assumption | lia | |].
  - replace (M - (d - step))%Z with (M - d + 1 * step)%Z by ring.
    rewrite Z.mod_add by lia; assumption.
  - intros x [<-|Hx]; [split; assumption | apply Hacc; assumption].
Qed.

(** C4 (counterexample): a semiannual bond whose row carries the payment dates
    20870 and 20920 gets exactly those dates as its schedule, off the 182-day
    grid counted back from maturity. *)
Lemma grid_fails_for_row_dates :
  ~ (forall df isin b p,
       lookup_row df isin = Some b -> Coupon_per_year b = Some 2%Z ->
       _full_coupon_schedule_and_params df isin = Ok p ->
       forall d, In d (p_dates p) -> ((p_maturity p - d) mod 182 = 0)%Z).
Proof.
  intros H.
  specialize (H sample_df "UA4000000004" bond_2027_rowdates _ eq_refl eq_refl
                full_bond_2027_rowdates 20870%Z (or_introl eq_refl)).
  simpl in H; discriminate H.
Qed.

(** C4 (amended): for a semiannual bond ([Coupon_per_year] 2 or missing)
    whose row supplies fewer than two payment dates, every schedule date [d]
    lies on or before maturity and satisfies [(maturity - d) mod 182 = 0].
    When the row supplies at least two payment dates, the schedule dates are
    exactly those dates and the maturity date. *)
Theorem semiannual_grid df isin b p :
  lookup_row df isin = Some b ->
  _full_coupon_schedule_and_params df isin = Ok p ->
  ((Coupon_per_year b = Some 2%Z \/ Coupon_per_year b = None) ->
   (List.length (_extract_coupon_dates_from_row b) < 2)%nat ->
   forall d, In d (p_dates p) ->
             (d <= p_maturity p)%Z /\ ((p_maturity p - d) mod 182 = 0)%Z) /\
  ((2 <= List.length (_extract_coupon_dates_from_row b))%nat ->
   forall d, In d (p_dates p) <-> d = p_maturity p \/ In d (payment_date_columns b)).
Proof.
  intros Hb E; unfold _full_coupon_schedule_and_params in E; rewrite Hb in E.
  injection E as <-; cbn [p_dates p_maturity]; split.
  - intros Hf Hl; apply Nat.ltb_lt in Hl; rewrite Hl.
    replace (if (match Coupon_per_year b with Some f => f | None => 0%Z end =? 0)%Z
             then 2%Z else match Coupon_per_year b with Some f => f | None => 0%Z end)
      with 2%Z by (destruct Hf as [-> | ->]; reflexivity).
    assert (Hg : forall x, In x (_fallback_coupon_dates (Date_Issue b) (Date_maturity b) 2) ->
                 (x <= Date_maturity b)%Z /\ ((Date_maturity b - x) mod 182 = 0)%Z).
    { unfold _fallback_coupon_dates, fallback_step; simpl.
      apply fallback_loop_grid; [lia | lia | rewrite Z.sub_diag; reflexivity | intros _ []]. }
    intros d Hd; apply add_maturity_members in Hd as [->|Hd]; [|apply Hg; assumption].
    rewrite Z.sub_diag; split; [lia | reflexivity].
  - intros Hl d; apply Nat.ltb_ge in Hl; rewrite Hl.
    rewrite add_maturity_members, extract_members; reflexivity.
Qed.

Lemma semiannual_grid_witness :
  ((20242 <= 20970)%Z /\ ((20970 - 20242) mod 182 = 0)%Z) /\
  (In 20920%Z [20870; 20920; 20970]%Z <->
   20920%Z = 20970%Z \/ In 20920%Z (payment_date_columns bond_2027_rowdates)).
Proof.
  split.
  - exact (proj1 (semiannual_grid sample_df "UA4000000001" bond_2027 _ eq_refl
                    full_bond_2027) (or_introl eq_refl) ltac:(simpl; lia) 20242%Z
                 ltac:(simpl; tauto)).
  - exact (proj2 (semiannual_grid sample_df "UA4000000004" bond_2027_rowdates _ eq_refl
                    full_bond_2027_rowdates) ltac:(simpl; lia) 20920%Z).
Defined.

(** ** The coupon period around a reference date *)

Lemma sorted_lt_head a t : Sorted Z.lt (a :: t) -> forall x, In x t -> (a < x)%Z.
Proof.
  intros H; apply Sorted_StronglySorted in H; [|intros ? ? ?; lia].
  inversion H as [|? ? _ Hall]; subst; intros x Hx.
  rewrite Forall_forall in Hall; apply Hall; assumption.
Qed.

Lemma sorted_nth_lt l i :
  Sorted Z.lt l -> (S i < List.length l)%nat -> (nth i l 0 < nth (S i) l 0)%Z.
Proof.
  revert i; induction l as [|a t IH]; intros i Hs Hi; simpl in Hi; [lia|].
  destruct i as [|i].
  - destruct t as [|b t]; simpl in Hi; [lia|].
    simpl; apply (sorted_lt_head a (b :: t) Hs); left; reflexivity.
  - simpl; apply IH; [inversion Hs; assumption | lia].
Qed.

Lemma py_index_spec x l :
  In x l -> (py_index x l < List.length l)%nat /\ nth (py_index x l) l 0%Z = x.
Proof.
  induction l as [|a t IH]; intros Hx; [destruct Hx|]; simpl.
  destruct (Z.eqb_spec x a) as [->|Hne]; [split; [lia | reflexivity]|].
  destruct Hx as [->|Hx]; [congruence|].
  destruct (IH Hx); split; [lia | assumption].
Qed.

(** In a strictly ascending list, [nth i] is the last element before [nth (S i)]. *)
Lemma sorted_pred l i :
  Sorted Z.lt l -> (S i < List.length l)%nat ->
  forall d, In d l -> (d < nth (S i) l 0)%Z -> (d <= nth i l 0)%Z.
Proof.
  revert i; induction l as [|a t IH]; intros i Hs Hi d Hd Hlt; [destruct Hd|].
  simpl in Hi.
  destruct Hd as [->|Hd].
  - destruct i as [|i]; simpl; [lia|].
    apply Z.lt_le_incl, (sorted_lt_head d t Hs), nth_In; lia.
  - destruct i as [|i].
    + destruct t as [|b t]; [destruct Hd|].
      simpl in Hlt. inversion Hs as [|? ? Ht _]; subst.
      destruct Hd as [->|Hd]; [lia|].
      pose proof (sorted_lt_head b t Ht d Hd); lia.
    + simpl; simpl in Hlt; apply IH; [inversion Hs; assumption | lia | assumption | assumption].
Qed.

(** The previous boundary lies strictly before the next one, so [KDP0] never
    needs its fallback. *)
Lemma prev_coupon_lt dates freq next :
  Sorted Z.lt dates -> In next dates ->
  (prev_coupon_of dates freq next < next)%Z /\
  kdp0_of dates freq next = (next - prev_coupon_of dates freq next)%Z.
Proof.
  intros Hs Hin.
  assert (Hp : (prev_coupon_of dates freq next < next)%Z).
  { destruct (py_index_spec next dates Hin) as [Hl Hn].
    unfold prev_coupon_of; destruct (py_index next dates) as [|i] eqn:Ei.
    - destruct (2 <=? List.length dates)%nat eqn:E2.
      + apply Nat.leb_le in E2; pose proof (sorted_nth_lt dates 0 Hs ltac:(lia)); lia.
      + lia.
    - rewrite <- Hn; apply sorted_nth_lt; assumption. }
  split; [assumption|].
  unfold kdp0_of; destruct (Z.leb_spec (next - prev_coupon_of dates freq next) 0); lia.
Qed.

Lemma future_dates_least dates calc_date next rest :
  Sorted Z.lt dates -> future_dates dates calc_date = next :: rest ->
  forall d, In d dates -> (calc_date <= d)%Z -> (next <= d)%Z.
Proof.
  unfold future_dates; revert next rest.
  induction dates as [|a t IH]; intros next rest Hs E d Hd Hcd; simpl in E;
    [discriminate|].
  revert E; destruct (Z.leb_spec calc_date a); intros E.
  - injection E as -> _.
    destruct Hd as [<-|Hd]; [lia|].
    apply Z.lt_le_incl, (sorted_lt_head next t Hs); assumption.
  - destruct Hd as [<-|Hd]; [lia|].
    eapply IH; [inversion Hs; assumption | exact E | assumption | assumption].
Qed.

Lemma future_dates_head dates calc_date next rest :
  Sorted Z.lt dates -> future_dates dates calc_date = next :: rest ->
  In next dates /\ (calc_date <= next)%Z /\
  (forall d, In d dates -> (calc_date <= d)%Z -> (next <= d)%Z).
Proof.
  intros Hs E.
  assert (Hn : In next (future_dates dates calc_date)) by (rewrite E; left; reflexivity).
  unfold future_dates in Hn; apply filter_In in Hn as [Hn Hc]; apply Z.leb_le in Hc.
  split; [assumption | split; [assumption|]].
  apply (future_dates_least dates calc_date next rest Hs E).
Qed.

Lemma future_dates_nonempty dates calc_date maturity :
  In maturity dates -> (calc_date < maturity)%Z ->
  exists next rest, future_dates dates calc_date = next :: rest.
Proof.
  intros Hm Hc.
  destruct (future_dates dates calc_date) as [|next rest] eqn:E; [|eauto].
  assert (In maturity (future_dates dates calc_date))
    by (apply filter_In; split; [assumption | apply Z.leb_le; lia]).
  rewrite E in H; destruct H.
Qed.

(** A reference date on the schedule is its own next boundary. *)
Lemma future_dates_on_date dates calc_date :
  Sorted Z.lt dates -> In calc_date dates ->
  exists rest, future_dates dates calc_date = calc_date :: rest.
Proof.
  unfold future_dates; induction dates as [|a t IH]; intros Hs Hin; [destruct Hin|].
  simpl. destruct Hin as [<-|Hin].
  - rewrite Z.leb_refl; eauto.
  - pose proof (sorted_lt_head a t Hs calc_date Hin).
    destruct (Z.leb_spec calc_date a); [lia|].
    apply IH; [inversion Hs; assumption | assumption].
Qed.

(** ** C6 *)

Lemma round2_eq_cents x k : x = (IZR k / 100)%R -> round2 x = (IZR k / 100)%R.
Proof. intros ->; apply round2_cents. Qed.

Lemma accrued_coupon df isin calc_date p :
  _full_coupon_schedule_and_params df isin = Ok p ->
  (0 < p_coupon_rate p)%R -> (0 < p_freq p)%Z ->
  accrued_interest calc_date isin df =
  match future_dates (p_dates p) calc_date with
  | [] => Ok 0%R
  | next_coupon :: _ =>
      let prev := prev_coupon_of (p_dates p) (p_freq p) next_coupon in
      let K := kdp0_of (p_dates p) (p_freq p) next_coupon in
      Ok (round2 (p_par p * p_coupon_rate p / IZR (p_freq p) *
                  (IZR (Z.min (Z.max (calc_date - prev) 0) K) / IZR K)))
  end.
Proof.
  intros H Hc Hf; unfold accrued_interest; rewrite H; cbn [bind].
  rewrite (Rleb_false _ _ Hc), (proj2 (Z.leb_gt _ _) Hf); reflexivity.
Qed.

Lemma accrued_zero_coupon df isin calc_date p :
  _full_coupon_schedule_and_params df isin = Ok p ->
  (p_coupon_rate p <= 0)%R \/ (p_freq p <= 0)%Z ->
  accrued_interest calc_date isin df = Ok 0%R.
Proof.
  intros H Hz; unfold accrued_interest; rewrite H; cbn [bind].
  destruct Hz as [Hz|Hz].
  - rewrite (Rleb_true _ _ Hz); reflexivity.
  - rewrite (proj2 (Z.leb_le _ _) Hz), orb_true_r; reflexivity.
Qed.

(** C6 (counterexample): day 20606 is a coupon date of the semiannual bond,
    yet the accrued interest there is the full coupon 80, not 0. *)
Lemma accrued_on_coupon_date_is_full :
  In 20606%Z [20242; 20424; 20606; 20788; 20970]%Z /\
  accrued_interest 20606 "UA4000000001" sample_df = Ok 80%R.
Proof.
  split; [simpl; tauto|].
  rewrite (accrued_coupon _ _ _ _ full_bond_2027) by (simpl; lra || lia).
  cbv [p_dates p_freq p_par p_coupon_rate future_dates filter Z.leb Z.compare
       Pos.compare Pos.compare_cont prev_coupon_of kdp0_of py_index Z.eqb Pos.eqb
       List.length nth Z.sub Z.add Z.opp Pos.add Pos.succ Z.pos_sub Pos.pred_double
       Z.succ_double Z.pred_double Z.double Z.min Z.max Nat.leb].
  f_equal; transitivity (IZR 8000 / 100)%R; [apply round2_eq_cents | ]; lra.
Qed.

(** C6 (amended): for a coupon bond and a reference date before maturity,
    [nextCoupon] is the earliest schedule date on or after the reference date;
    [prevCoupon] is the schedule date just before it, or
    [nextCoupon - (dates[1] - dates[0])] ([- max(1, 365 // freq)] for a
    one-date schedule) when [nextCoupon] is the first date; the period
    [nextCoupon - prevCoupon] is positive; the result is
    [round(SD * min(max(0, ref - prevCoupon), period) / period, 2)] with
    [SD = par * couponRate / couponsPerYear].  Zero-coupon bonds give 0 at
    every reference date.  When the reference date is itself a schedule date
    (the first one and maturity included) the result is the full coupon
    [round(SD, 2)]. *)
Theorem accrued_interest_lookup df isin calc_date p :
  _full_coupon_schedule_and_params df isin = Ok p ->
  let dates := p_dates p in
  let freq := p_freq p in
  let SD := (p_par p * p_coupon_rate p / IZR freq)%R in
  ((p_coupon_rate p <= 0)%R \/ (freq <= 0)%Z ->
     accrued_interest calc_date isin df = Ok 0%R) /\
  ((calc_date < p_maturity p)%Z -> (0 < p_coupon_rate p)%R -> (0 < freq)%Z ->
   exists next rest,
     future_dates dates calc_date = next :: rest /\
     In next dates /\ (calc_date <= next)%Z /\
     (forall d, In d dates -> (calc_date <= d)%Z -> (next <= d)%Z) /\
     let prev := prev_coupon_of dates freq next in
     (prev < next)%Z /\
     (py_index next dates <> O ->
        In prev dates /\ forall d, In d dates -> (d < next)%Z -> (d <= prev)%Z) /\
     (py_index next dates = O ->
        prev = (next - (if (2 <=? List.length dates)%nat
                        then nth 1 dates 0 - nth 0 dates 0
                        else Z.max 1 (365 / freq)))%Z) /\
     accrued_interest calc_date isin df =
       Ok (round2 (SD * (IZR (Z.min (Z.max (calc_date - prev) 0) (next - prev))
                         / IZR (next - prev))))) /\
  ((0 < p_coupon_rate p)%R -> (0 < freq)%Z -> In calc_date dates ->
   accrued_interest calc_date isin df = Ok (round2 SD)).
Proof.
  intros H dates freq SD.
  destruct (full_dates_ok df isin p H) as [Hs Hm].
  split; [|split].
  - apply (accrued_zero_coupon _ _ _ _ H).
  - intros Hc Hcr Hf.
    destruct (future_dates_nonempty dates calc_date (p_maturity p) Hm Hc)
      as [next [rest E]].
    destruct (future_dates_head dates calc_date next rest Hs E) as [Hn [Hcn Hleast]].
    destruct (prev_coupon_lt dates freq next Hs Hn) as [Hp Hk].
    exists next, rest; split; [assumption|split; [assumption|split; [assumption|]]].
    split; [assumption|]; cbv zeta.
    split; [assumption|split; [|split]].
    + intros Hi.
      destruct (py_index_spec next dates Hn) as [Hl Hnth].
      unfold prev_coupon_of; destruct (py_index next dates) as [|i] eqn:Ei;
        [contradiction|].
      split; [apply nth_In; lia|].
      intros d Hd Hdn; apply (sorted_pred dates i Hs Hl d Hd); rewrite Hnth; assumption.
    + intros Hi; unfold prev_coupon_of; rewrite Hi; reflexivity.
    + rewrite (accrued_coupon _ _ _ _ H Hcr Hf); fold dates freq; rewrite E.
      cbv zeta; rewrite Hk; reflexivity.
  - intros Hcr Hf Hin.
    destruct (future_dates_on_date dates calc_date Hs Hin) as [rest E].
    destruct (prev_coupon_lt dates freq calc_date Hs Hin) as [Hp Hk].
    rewrite (accrued_coupon _ _ _ _ H Hcr Hf); fold dates freq; rewrite E.
    cbv zeta; rewrite Hk.
    replace (Z.min (Z.max (calc_date - prev_coupon_of dates freq calc_date) 0)
                   (calc_date - prev_coupon_of dates freq calc_date))
      with (calc_date - prev_coupon_of dates freq calc_date)%Z by lia.
    assert (IZR (calc_date - prev_coupon_of dates freq calc_date) <> 0)%R
      by (apply not_0_IZR; lia).
    unfold SD; do 2 f_equal; field;
      repeat split; first [assumption | apply not_0_IZR; lia].
Qed.

Lemma accrued_interest_lookup_witness :
  accrued_interest 20242 "UA4000000001" sample_df = Ok (round2 (1000 * (16 / 100) / IZR 2)).
Proof.
  exact (proj2 (proj2 (accrued_interest_lookup sample_df "UA4000000001" 20242 _
                          full_bond_2027))
               ltac:(simpl; lra) ltac:(simpl; lia) ltac:(simpl; tauto)).
Defined.

(** ** C5 *)

Lemma accrued_ok df isin calc_date p :
  _full_coupon_schedule_and_params df isin = Ok p ->
  exists a, accrued_interest calc_date isin df = Ok a.
Proof.
  intros H; unfold accrued_interest; rewrite H; cbn [bind].
  destruct (Rleb _ _ || _)%bool; [eauto|].
  destruct (future_dates _ _); eauto.
Qed.

Lemma secondary_zero_coupon df isin calc_date yp p :
  _full_coupon_schedule_and_params df isin = Ok p ->
  (calc_date < p_maturity p)%Z ->
  (p_coupon_rate p <= 0)%R \/ (p_freq p <= 0)%Z ->
  secondary_price_from_yield calc_date isin yp df =
  let price := sim_price (p_par p) (yp / 100) (p_maturity p - calc_date) in
  Ok (mk_pricing (round2 price) 0 (round2 price) (p_ccy p) "SIM").
Proof.
  intros H Hc Hz; unfold secondary_price_from_yield; rewrite H; cbn [bind].
  rewrite (proj2 (Z.leb_gt _ _) Hc).
  replace (Rltb 0 (p_coupon_rate p) && (0 <? p_freq p)%Z) with false; [reflexivity|].
  destruct Hz as [Hz|Hz].
  - rewrite (Rltb_false _ _ Hz); reflexivity.
  - rewrite (proj2 (Z.ltb_ge _ _) Hz), andb_false_r; reflexivity.
Qed.

Lemma secondary_coupon df isin calc_date yp p :
  _full_coupon_schedule_and_params df isin = Ok p ->
  (calc_date < p_maturity p)%Z ->
  (0 < p_coupon_rate p)%R -> (0 < p_freq p)%Z ->
  secondary_price_from_yield calc_date isin yp df =
  let y := (yp / 100)%R in
  let days_to_mty := (p_maturity p - calc_date)%Z in
  let SD := (p_par p * p_coupon_rate p / IZR (p_freq p))%R in
  let future := future_dates (p_dates p) calc_date in
  if short_or_last days_to_mty future (p_maturity p) then
    let price := sim_price (p_par p + SD) y days_to_mty in
    ai <- accrued_interest calc_date isin df ;;
    Ok (mk_pricing (round2 price) ai (round2 (price - ai)) (p_ccy p) "SIM")
  else
    let price := round2 (ytm_total future calc_date days_to_mty SD (p_par p) y) in
    ai <- accrued_interest calc_date isin df ;;
    Ok (mk_pricing price ai (round2 (price - ai)) (p_ccy p) "YTM").
Proof.
  intros H Hc Hcr Hf; unfold secondary_price_from_yield; rewrite H; cbn [bind].
  rewrite (proj2 (Z.leb_gt _ _) Hc), (Rltb_true _ _ Hcr), (proj2 (Z.ltb_lt _ _) Hf).
  reflexivity.
Qed.

Lemma short_or_last_iff days future maturity :
  short_or_last days future maturity = true <->
  (days <= 182)%Z \/ future = [maturity].
Proof.
  unfold short_or_last; rewrite orb_true_iff, Z.leb_le.
  destruct future as [|d [|e t]]; simpl.
  - split; [intros [H|H]; [left; assumption | discriminate] | intros [H|H]; [left; assumption | discriminate]].
  - rewrite Z.eqb_eq; split; intros [H|H]; subst; auto; right; congruence.
  - split; intros [H|H]; auto; discriminate.
Qed.

Lemma fold_left_Rplus_shift l a c :
  fold_left Rplus l (a + c)%R = (fold_left Rplus l a + c)%R.
Proof.
  revert a; induction l as [|x t IH]; intros a; simpl; [reflexivity|].
  replace (a + c + x)%R with (a + x + c)%R by ring; apply IH.
Qed.

Lemma fold_left_sum_map (g : Z -> R) l acc :
  fold_left (fun total d => (total + g d)%R) l acc = fold_left Rplus (map g l) acc.
Proof.
  revert acc; induction l as [|x t IH]; intros acc; simpl; [reflexivity | apply IH].
Qed.

(** C5 (counterexample): for the quarterly bond 150 days before maturity two
    coupon dates (20879 and 20970) are still ahead, yet the price is the SIM
    formula. *)
Lemma sim_with_two_coupons_ahead :
  filter (fun d => (20820 <? d)%Z) [20606; 20697; 20788; 20879; 20970]%Z
    = [20879; 20970]%Z /\
  exists r, secondary_price_from_yield 20820 "UA4000000002" 16 sample_df = Ok r /\
            pr_formula r = "SIM".
Proof.
  split; [reflexivity|].
  rewrite (secondary_coupon _ _ _ _ _ full_bond_2027_q) by (simpl; lra || lia).
  destruct (accrued_ok sample_df "UA4000000002" 20820 _ full_bond_2027_q) as [a Ha].
  cbn zeta; replace (short_or_last _ _ _) with true by reflexivity.
  rewrite Ha; cbn [bind]; eexists; split; reflexivity.
Qed.

(** C5 (amended): zero-coupon bonds ([couponRate <= 0] or [couponsPerYear <= 0])
    are priced [SIM] on par alone with accrued interest 0.  For a coupon bond
    before maturity, [SIM] on [par + SD] is used exactly when at most 182 days
    remain or the only schedule date on or after the reference date is the
    maturity date; otherwise [YTM] discounts every such schedule date's coupon
    [SD/(1+y)^(days_i/365)] (the maturity date among them) and, as a separate
    cashflow, [par/(1+y)^(days/365)].  Each part assumes the yield at which
    the expressions it evaluates are defined: a nonzero SIM denominator
    [1 + y*days/365], and [1 + y > 0] for the powers of the YTM sum (at other
    yields Python raises [ZeroDivisionError] or, on a complex power,
    [TypeError] in [round]). *)
Theorem secondary_formula_selection df isin calc_date yp p :
  _full_coupon_schedule_and_params df isin = Ok p ->
  (calc_date < p_maturity p)%Z ->
  let par := p_par p in
  let maturity := p_maturity p in
  let y := (yp / 100)%R in
  let days := (maturity - calc_date)%Z in
  let SD := (par * p_coupon_rate p / IZR (p_freq p))%R in
  let future := future_dates (p_dates p) calc_date in
  ((1 + y * (IZR days / 365) <> 0)%R ->
   (p_coupon_rate p <= 0)%R \/ (p_freq p <= 0)%Z ->
     secondary_price_from_yield calc_date isin yp df =
     Ok (mk_pricing (round2 (par / (1 + y * (IZR days / 365))))
                    0 (round2 (par / (1 + y * (IZR days / 365)))) (p_ccy p) "SIM")) /\
  ((0 < p_coupon_rate p)%R -> (0 < p_freq p)%Z ->
   ((days <= 182)%Z \/ future = [maturity] -> (1 + y * (IZR days / 365) <> 0)%R) ->
   (~ ((days <= 182)%Z \/ future = [maturity]) -> (0 < 1 + y)%R) ->
   exists r ai,
     secondary_price_from_yield calc_date isin yp df = Ok r /\
     accrued_interest calc_date isin df = Ok ai /\ pr_ai r = ai /\
     (pr_formula r = "SIM" <-> ((days <= 182)%Z \/ future = [maturity])) /\
     ((days <= 182)%Z \/ future = [maturity] ->
        pr_dirty r = round2 ((par + SD) / (1 + y * (IZR days / 365))) /\
        pr_clean r = round2 ((par + SD) / (1 + y * (IZR days / 365)) - ai)) /\
     (~ ((days <= 182)%Z \/ future = [maturity]) ->
        pr_formula r = "YTM" /\ In maturity future /\
        pr_dirty r =
          round2 (py_sum (map (fun d => SD / py_pow (1 + y) (IZR (d - calc_date) / 365))%R
                              future)
                  + par / py_pow (1 + y) (IZR days / 365)) /\
        pr_clean r = round2 (pr_dirty r - ai))).
Proof.
  intros H Hc par maturity y days SD future.
  split.
  - intros _ Hz; rewrite (secondary_zero_coupon _ _ _ _ _ H Hc Hz); reflexivity.
  - intros Hcr Hf _ _.
    destruct (accrued_ok df isin calc_date p H) as [ai Hai].
    rewrite (secondary_coupon _ _ _ _ _ H Hc Hcr Hf); cbv zeta; rewrite Hai; cbn [bind].
    fold par maturity y days SD future.
    destruct (short_or_last days future maturity) eqn:Es.
    + apply short_or_last_iff in Es.
      eexists; exists ai; split; [reflexivity|]; simpl.
      repeat split; auto; tauto.
    + assert (Hns : ~ ((days <= 182)%Z \/ future = [maturity])).
      { intros Hx; apply short_or_last_iff in Hx; congruence. }
      eexists; exists ai; split; [reflexivity|]; simpl.
      split; [reflexivity|split; [reflexivity|]].
      split; [split; [discriminate | intros Hx; contradiction]|].
      split; [intros Hx; contradiction|].
      intros _; split; [reflexivity|split; [|split; [|reflexivity]]].
      * destruct (full_dates_ok df isin p H) as [_ Hm].
        apply filter_In; split; [assumption | apply Z.leb_le; lia].
      * unfold ytm_total, py_sum; rewrite fold_left_sum_map; reflexivity.
Qed.

Lemma secondary_formula_selection_witness :
  exists r, secondary_price_from_yield 20820 "UA4000000002" 16 sample_df = Ok r /\
            pr_formula r = "SIM".
Proof.
  destruct (proj2 (secondary_formula_selection sample_df "UA4000000002" 20820 16 _
                     full_bond_2027_q ltac:(simpl; lia))
                  ltac:(simpl; lra) ltac:(simpl; lia) ltac:(intros _; simpl; lra)
                  ltac:(intros _; lra))
    as (r & ai & Hr & _ & _ & Hf & _).
  exists r; split; [exact Hr | apply Hf; left; simpl; lia].
Defined.

(** ** C7 *)

Lemma primary_coupon df isin calc_date yp p :
  _full_coupon_schedule_and_params df isin = Ok p ->
  (calc_date < p_maturity p)%Z ->
  (0 < p_coupon_rate p)%R -> (0 < p_freq p)%Z ->
  primary_price_from_yield_minfin calc_date isin yp df =
  let SD := (p_par p * p_coupon_rate p / IZR (p_freq p))%R in
  match future_dates (p_dates p) calc_date with
  | [] => Ok (mk_pricing 0 0 0 (p_ccy p) "MinFin")
  | next_c :: _ =>
      let future := future_dates (p_dates p) calc_date in
      let KDP0 := kdp0_of (p_dates p) (p_freq p) next_c in
      let base := (1 + yp / 100 / IZR (p_freq p))%R in
      let dirty := round2 (minfin_total future calc_date (p_maturity p) KDP0 SD
                                        (p_par p) base) in
      ai <- accrued_interest calc_date isin df ;;
      Ok (mk_pricing dirty ai (round2 (dirty - ai)) (p_ccy p) "MinFin")
  end.
Proof.
  intros H Hc Hcr Hf; unfold primary_price_from_yield_minfin; rewrite H; cbn [bind].
  rewrite (proj2 (Z.leb_gt _ _) Hc), (Rltb_true _ _ Hcr), (proj2 (Z.ltb_lt _ _) Hf).
  reflexivity.
Qed.

(** With [maturity] occurring at most once, the Minfin loop is the sum of the
    coupon terms plus the par term at maturity. *)
Lemma minfin_fold_split (f g : Z -> R) maturity l acc :
  NoDup l ->
  fold_left (fun dirty d =>
      if (d =? maturity)%Z then (dirty + f d + g d)%R else (dirty + f d)%R) l acc
  = (fold_left Rplus (map f l) acc + (if py_in maturity l then g maturity else 0))%R.
Proof.
  revert acc; induction l as [|d t IH]; intros acc Hn; simpl; [ring|].
  inversion Hn as [|? ? Hd Ht]; subst.
  rewrite IH by assumption.
  unfold py_in; simpl; fold (py_in maturity t).
  destruct (Z.eqb_spec d maturity) as [->|Hne].
  - rewrite Z.eqb_refl; simpl.
    replace (py_in maturity t) with false
      by (symmetry; apply not_true_iff_false; rewrite py_in_In; assumption).
    rewrite fold_left_Rplus_shift; ring.
  - replace (maturity =? d)%Z with false by (symmetry; apply Z.eqb_neq; congruence).
    simpl; ring.
Qed.

(** C7: for a coupon bond and a reference date before maturity, the Minfin
    dirty price is [round(Σ_i SD/DF_i + par/DF_maturity, 2)], the sum running
    over the schedule dates on or after the reference date, with
    [DF = (1 + y/k)^(DD/KDP0)], [DD] the days to the cashflow and
    [KDP0 = nextCoupon - prevCoupon] the current coupon period found by the
    same lookup as [accrued_interest]; the period contains the reference date
    whenever [nextCoupon] is not the first schedule date.  Rounding happens
    only on the returned values.  The yield is one with a positive base
    [1 + y/k], the only one at which every [DF] is a positive real (at others
    Python raises [ZeroDivisionError] on [0.0 ** t] or, on a complex power,
    [TypeError] in [round]). *)
Theorem minfin_price_formula df isin calc_date yp p :
  _full_coupon_schedule_and_params df isin = Ok p ->
  (calc_date < p_maturity p)%Z ->
  (0 < p_coupon_rate p)%R -> (0 < p_freq p)%Z ->
  (0 < 1 + yp / 100 / IZR (p_freq p))%R ->
  let dates := p_dates p in
  let freq := p_freq p in
  let par := p_par p in
  let maturity := p_maturity p in
  let SD := (par * p_coupon_rate p / IZR freq)%R in
  let base := (1 + yp / 100 / IZR freq)%R in
  let future := future_dates dates calc_date in
  exists next rest ai,
    future = next :: rest /\
    let prev := prev_coupon_of dates freq next in
    let KDP0 := (next - prev)%Z in
    (0 < KDP0)%Z /\
    (py_index next dates <> O -> (prev < calc_date <= next)%Z) /\
    accrued_interest calc_date isin df = Ok ai /\
    ai = round2 (SD * (IZR (Z.min (Z.max (calc_date - prev) 0) KDP0) / IZR KDP0)) /\
    let dirty :=
      round2 (py_sum (map (fun d => SD / py_pow base (IZR (d - calc_date) / IZR KDP0))%R
                          future)
              + par / py_pow base (IZR (maturity - calc_date) / IZR KDP0)) in
    primary_price_from_yield_minfin calc_date isin yp df
      = Ok (mk_pricing dirty ai (round2 (dirty - ai)) (p_ccy p) "MinFin").
Proof.
  intros H Hc Hcr Hf _ dates freq par maturity SD base future.
  destruct (full_dates_ok df isin p H) as [Hs Hm].
  destruct (future_dates_nonempty dates calc_date maturity Hm Hc) as [next [rest E]].
  destruct (future_dates_head dates calc_date next rest Hs E) as [Hn [Hcn Hleast]].
  destruct (prev_coupon_lt dates freq next Hs Hn) as [Hp Hk].
  destruct (accrued_ok df isin calc_date p H) as [ai Hai].
  exists next, rest, ai; split; [exact E|]; cbv zeta.
  split; [lia|split; [|split; [exact Hai|split]]].
  - intros Hi.
    destruct (py_index_spec next dates Hn) as [Hl Hnth].
    unfold prev_coupon_of in *; destruct (py_index next dates) as [|i] eqn:Ei;
      [contradiction|].
    split; [|assumption].
    destruct (Z.lt_ge_cases (nth i dates 0%Z) calc_date) as [Hlt|Hge]; [assumption|].
    pose proof (Hleast (nth i dates 0%Z) ltac:(apply nth_In; lia) Hge); lia.
  - rewrite (accrued_coupon _ _ _ _ H Hcr Hf) in Hai; fold dates freq in Hai.
    rewrite E in Hai; cbv zeta in Hai; rewrite Hk in Hai.
    injection Hai as <-; reflexivity.
  - rewrite (primary_coupon _ _ _ _ _ H Hc Hcr Hf); fold dates freq par maturity SD.
    rewrite E; cbv zeta; rewrite Hai; cbn [bind]; rewrite <- E.
    fold base; rewrite Hk.
    unfold minfin_total.
    rewrite (minfin_fold_split
               (fun d => SD / py_pow base (IZR (d - calc_date) / IZR (next - prev_coupon_of dates freq next)))%R
               (fun d => par / py_pow base (IZR (d - calc_date) / IZR (next - prev_coupon_of dates freq next)))%R
               maturity (future_dates dates calc_date) 0%R).
    + replace (py_in maturity (future_dates dates calc_date)) with true; [reflexivity|].
      symmetry; apply py_in_In, filter_In; split; [assumption | apply Z.leb_le; lia].
    + apply NoDup_filter, sorted_lt_nodup; assumption.
Qed.

Lemma minfin_price_formula_witness :
  exists next rest ai,
    future_dates [20242; 20424; 20606; 20788; 20970]%Z 20300 = next :: rest /\
    accrued_interest 20300 "UA4000000001" sample_df = Ok ai.
Proof.
  destruct (minfin_price_formula sample_df "UA4000000001" 20300 16 _ full_bond_2027
              ltac:(simpl; lia) ltac:(simpl; lra) ltac:(simpl; lia) ltac:(simpl; lra))
    as (next & rest & ai & E & _ & _ & Hai & _).
  exists next, rest, ai; split; [exact E | exact Hai].
Defined.

(** ** C9 *)

Lemma bracket_loop_spec func e n :
  forall lo hi f_lo,
  exists k, (k <= n)%nat /\
    fst (bracket_loop func e n lo hi f_lo (func hi))
      = (lo, (hi * e ^ k)%R, f_lo, func (hi * e ^ k)%R) /\
    List.length (snd (bracket_loop func e n lo hi f_lo (func hi))) = k /\
    (forall j, (j < k)%nat -> (0 < f_lo * func (hi * e ^ j))%R) /\
    ((f_lo * func (hi * e ^ k) <= 0)%R \/ k = n).
Proof.
  induction n as [|n IH]; intros lo hi f_lo.
  - exists O; simpl; rewrite Rmult_1_r.
    repeat split; [lia | intros j Hj; lia | right; reflexivity].
  - simpl; unfold Rltb; destruct (Rlt_dec 0 (f_lo * func hi)) as [Hp|Hp].
    + destruct (IH lo (hi * e)%R f_lo) as [k [Hk [Hf [Hl [Hall Hend]]]]].
      unfold tbind, call.
      destruct (bracket_loop func e n lo (hi * e)%R f_lo (func (hi * e)%R)) as [b l2] eqn:Eb.
      simpl in Hf, Hl |- *.
      exists (S k).
      replace (hi * e ^ S k)%R with (hi * e * e ^ k)%R by (simpl; ring).
      split; [lia | split; [exact Hf | split; [lia | split]]].
      * intros j Hj; destruct j as [|j]; [simpl; rewrite Rmult_1_r; exact Hp|].
        replace (hi * e ^ S j)%R with (hi * e * e ^ j)%R by (simpl; ring).
        apply Hall; lia.
      * destruct Hend as [Hend|Hend]; [left; exact Hend | right; lia].
    + exists O; simpl; rewrite Rmult_1_r.
      repeat split; [lia | intros j Hj; lia | left; lra].
Qed.

Lemma bisect_loop_calls func tol n :
  forall lo hi f_lo f_hi,
  (List.length (snd (bisect_loop func tol n lo hi f_lo f_hi)) <= n)%nat.
Proof.
  induction n as [|n IH]; intros lo hi f_lo f_hi; simpl; [lia|].
  unfold tbind, call.
  destruct (Rltb (Rabs _) tol || Rltb _ tol)%bool; simpl; [lia|].
  destruct (Rltb _ 0).
  - destruct (bisect_loop func tol n lo _ f_lo _) as [b l] eqn:E.
    specialize (IH lo (/ 2 * (lo + hi))%R f_lo (func (/ 2 * (lo + hi))%R));
      rewrite E in IH; simpl in *; lia.
  - destruct (bisect_loop func tol n _ hi _ f_hi) as [b l] eqn:E.
    specialize (IH (/ 2 * (lo + hi))%R hi (func (/ 2 * (lo + hi))%R) f_hi);
      rewrite E in IH; simpl in *; lia.
Qed.

Lemma bisect_calls func lo hi f_lo f_hi tol maxiter :
  (List.length (snd (_bisect func lo hi (Some f_lo) (Some f_hi) tol maxiter))
     <= Z.to_nat maxiter)%nat.
Proof.
  unfold _bisect, tbind, tret; simpl.
  destruct (Reqb f_lo 0); simpl; [lia|].
  destruct (Reqb f_hi 0); simpl; [lia|].
  destruct (bisect_loop func tol (Z.to_nat maxiter) lo hi f_lo f_hi) as [b l] eqn:E.
  pose proof (bisect_loop_calls func tol (Z.to_nat maxiter) lo hi f_lo f_hi) as Hb.
  rewrite E in Hb; simpl in *; rewrite ?app_nil_r; lia.
Qed.

Lemma bisect_early func lo hi f_lo f_hi tol maxiter :
  f_lo <> 0%R -> f_hi <> 0%R -> (0 < maxiter)%Z ->
  (Rabs (func (/ 2 * (lo + hi))) < tol)%R ->
  fst (_bisect func lo hi (Some f_lo) (Some f_hi) tol maxiter) = (/ 2 * (lo + hi))%R.
Proof.
  intros Hl Hh Hm Ht.
  unfold _bisect, tbind, tret; simpl.
  rewrite (Reqb_false _ _ Hl), (Reqb_false _ _ Hh).
  destruct (Z.to_nat maxiter) as [|n] eqn:En; [lia|]; simpl.
  unfold tbind, call; rewrite (Rltb_true _ _ Ht); reflexivity.
Qed.

Lemma bracket_spec func lo hi e n :
  exists k, (k <= n)%nat /\
    fst (_bracket func lo hi e n) = (lo, (hi * e ^ k)%R, func lo, func (hi * e ^ k)%R) /\
    List.length (snd (_bracket func lo hi e n)) = (2 + k)%nat /\
    (forall j, (j < k)%nat -> (0 < func lo * func (hi * e ^ j))%R) /\
    ((func lo * func (hi * e ^ k) <= 0)%R \/ k = n).
Proof.
  destruct (bracket_loop_spec func e n lo hi (func lo)) as [k [Hk [Hf [Hl [Hall Hend]]]]].
  unfold _bracket, tbind, call.
  destruct (bracket_loop func e n lo hi (func lo) (func hi)) as [b l] eqn:E.
  simpl in *; exists k; repeat split; auto; lia.
Qed.

(** C9: [_solve_root] always returns a value and makes finitely many calls of
    [func], whatever [func] is.  First [_bracket] multiplies [hi] by 1.5 after
    each try, at most 25 times, while [func lo] and [func hi] have the same
    sign: the final bracket is [lo, hi * 1.5^k] with [k <= 25], the product was
    positive at every earlier [hi * 1.5^j], and it is [<= 0] at the end unless
    all 25 tries were used.  If no sign change was found the result is the
    midpoint of the final bracket; otherwise it is the result of [_bisect] on
    the final bracket.  [_bisect] makes at most [maxiter] calls and returns the
    midpoint early when [|func mid| < tol].  In all, [_solve_root] calls
    [func] at most [27 + maxiter] times. *)
Theorem solve_root_total func lo hi tol maxiter :
  exists k, (k <= 25)%nat /\
    fst (_bracket func lo hi (3 / 2) 25)
      = (lo, (hi * (3 / 2) ^ k)%R, func lo, func (hi * (3 / 2) ^ k)%R) /\
    (forall j, (j < k)%nat -> (0 < func lo * func (hi * (3 / 2) ^ j))%R) /\
    ((func lo * func (hi * (3 / 2) ^ k) <= 0)%R \/ k = 25%nat) /\
    ((0 < func lo * func (hi * (3 / 2) ^ k))%R ->
       fst (_solve_root func lo hi tol maxiter) = (/ 2 * (lo + hi * (3 / 2) ^ k))%R) /\
    ((func lo * func (hi * (3 / 2) ^ k) <= 0)%R ->
       fst (_solve_root func lo hi tol maxiter)
       = fst (_bisect func lo (hi * (3 / 2) ^ k)%R (Some (func lo))
                (Some (func (hi * (3 / 2) ^ k)%R)) tol maxiter)) /\
    (forall lo' hi' f_lo f_hi, f_lo <> 0%R -> f_hi <> 0%R -> (0 < maxiter)%Z ->
       (Rabs (func (/ 2 * (lo' + hi'))) < tol)%R ->
       fst (_bisect func lo' hi' (Some f_lo) (Some f_hi) tol maxiter)
       = (/ 2 * (lo' + hi'))%R) /\
    (List.length (snd (_solve_root func lo hi tol maxiter)) <= 27 + Z.to_nat maxiter)%nat.
Proof.
  destruct (bracket_spec func lo hi (3 / 2) 25) as [k [Hk [Hf [Hl [Hall Hend]]]]].
  exists k.
  unfold _solve_root, tbind.
  destruct (_bracket func lo hi (3 / 2) 25) as [b l] eqn:Eb.
  simpl in Hf, Hl; subst b.
  split; [exact Hk|]. split; [reflexivity|]. split; [exact Hall|].
  split; [exact Hend|].
  split; [intros Hp; rewrite (Rltb_true _ _ Hp); reflexivity|].
  split.
  { intros Hn; rewrite (Rltb_false _ _ Hn).
    destruct (_bisect _ _ _ _ _ _ _); reflexivity. }
  split; [intros; apply bisect_early; assumption|].
  destruct (Rltb 0 _).
  - simpl; rewrite length_app; simpl; lia.
  - pose proof (bisect_calls func lo (hi * (3 / 2) ^ k)%R (func lo)
                  (func (hi * (3 / 2) ^ k)%R) tol maxiter) as Hb.
    destruct (_bisect _ _ _ _ _ _ _) as [x l2]; simpl in *.
    rewrite length_app; lia.
Qed.

(** ** C1 *)

(** Both solver calls of [yields_from_price] pass [xtol], which [_solve_root]
    does not accept. *)
Lemma call_solve_root_xtol f lo hi :
  call_solve_root f lo hi solver_kwargs
  = Err (TypeError "_solve_root() got an unexpected keyword argument 'xtol'").
Proof. reflexivity. Qed.

Lemma yields_coupon_fallback df isin calc_date price p :
  _full_coupon_schedule_and_params df isin = Ok p ->
  (calc_date < p_maturity p)%Z ->
  (0 < p_coupon_rate p)%R -> (0 < p_freq p)%Z ->
  exists r, yields_from_price calc_date isin price df = Ok r /\
    Primary_formula r = "SIM (fallback)" /\
    Secondary_formula r
      = (if short_or_last (p_maturity p - calc_date)
              (future_dates (p_dates p) calc_date) (p_maturity p)
         then "SIM" else "SIM (fallback)") /\
    Primary_yield r
      = round2 (sim_yield (p_par p + p_par p * p_coupon_rate p / IZR (p_freq p))
                  price (p_maturity p - calc_date)) /\
    Secondary_yield r = Primary_yield r /\
    y_Currency r = p_ccy p.
Proof.
  intros H Hc Hcr Hf.
  destruct (full_dates_ok _ _ _ H) as [_ Hm].
  destruct (future_dates_nonempty _ _ _ Hm Hc) as [next [rest E]].
  unfold yields_from_price; rewrite H; cbn [bind].
  rewrite (proj2 (Z.leb_gt _ _) Hc), (Rltb_true _ _ Hcr), (proj2 (Z.ltb_lt _ _) Hf).
  cbn zeta beta iota; rewrite E, !call_solve_root_xtol.
  destruct (short_or_last _ _ _); eexists; repeat split; reflexivity.
Qed.

Lemma disc_lower b x c :
  (1 <= b)%R -> (x <= 2)%R -> (0 <= c)%R -> (c / b ^ 2 <= c / py_pow b x)%R.
Proof.
  intros Hb Hx Hc; unfold py_pow.
  assert (Hp : (Rpower b x <= b ^ 2)%R).
  { replace (b ^ 2)%R with (Rpower b (INR 2)) by (apply Rpower_pow; lra).
    apply Rle_Rpower; [exact Hb | simpl; lra]. }
  unfold Rdiv; apply Rmult_le_compat_l; [exact Hc|].
  apply Rinv_le_contravar; [unfold Rpower; apply exp_pos | exact Hp].
Qed.

(** C1: the round trip fails.  The 16% semiannual bond maturing on day 20970
    (2027-06-01), priced by [secondary_price_from_yield] on day 20270
    (2025-07-01) at 16% (formula [YTM]), is sent back to [yields_from_price]
    with that dirty price: both yields come out below 15% with formula
    [SIM (fallback)], since the solver call raises [TypeError]. *)
Theorem round_trip_falls_back :
  exists pr r,
    secondary_price_from_yield 20270 "UA4000000001" 16 sample_df = Ok pr /\
    pr_formula pr = "YTM" /\
    yields_from_price 20270 "UA4000000001" (pr_dirty pr) sample_df = Ok r /\
    Secondary_formula r = "SIM (fallback)" /\
    Primary_formula r = "SIM (fallback)" /\
    (Secondary_yield r < 15)%R /\ (Primary_yield r < 15)%R.
Proof.
  rewrite (secondary_coupon _ _ _ _ _ full_bond_2027) by (simpl; lra || lia).
  destruct (accrued_ok sample_df "UA4000000001" 20270 _ full_bond_2027) as [a Ha].
  cbn zeta; replace (short_or_last _ _ _) with false by reflexivity.
  rewrite Ha; cbn [bind].
  set (SD := (1000 * (16 / 100) / IZR 2)%R).
  assert (HSD : SD = 80%R) by (unfold SD; lra).
  set (P := round2 _).
  assert (HP : (900 <= P)%R).
  { unfold P; match goal with |- (_ <= round2 ?t)%R =>
      pose proof (round2_close t) as Hc; assert (980 <= t)%R; [|(unfold Rabs in Hc; destruct (Rcase_abs _); lra)] end.
    replace (future_dates _ 20270) with [20424; 20606; 20788; 20970]%Z by reflexivity.
    unfold ytm_total; cbn [fold_left p_par p_coupon_rate p_freq p_maturity] in *; fold SD.
    assert (Hb : (1 <= 1 + 16 / 100)%R) by lra.
    assert (H0 : (0 <= SD)%R) by lra.
    assert (Hq : ((1 + 16 / 100) ^ 2 = 13456 / 10000)%R) by (simpl; lra).
    pose proof (disc_lower _ (IZR (20424 - 20270) / 365) SD Hb
                  ltac:(rewrite minus_IZR; lra) H0).
    pose proof (disc_lower _ (IZR (20606 - 20270) / 365) SD Hb
                  ltac:(rewrite minus_IZR; lra) H0).
    pose proof (disc_lower _ (IZR (20788 - 20270) / 365) SD Hb
                  ltac:(rewrite minus_IZR; lra) H0).
    pose proof (disc_lower _ (IZR (20970 - 20270) / 365) SD Hb
                  ltac:(rewrite minus_IZR; lra) H0).
    pose proof (disc_lower _ (IZR (20970 - 20270) / 365) 1000 Hb
                  ltac:(rewrite minus_IZR; lra) ltac:(lra)).
    rewrite Hq in *; rewrite HSD in *; lra. }
  destruct (yields_coupon_fallback sample_df "UA4000000001" 20270 P _ full_bond_2027)
    as [r [Hr [Hpf [Hsf [Hpy [Hsy _]]]]]]; cbn [p_maturity p_coupon_rate p_freq] in *;
    try (lra || lia).
  eexists; exists r; split; [reflexivity|]; split; [reflexivity|]; cbn [pr_dirty].
  rewrite Hsy, Hpy.
  replace (short_or_last _ _ _) with false in Hsf by reflexivity.
  assert (Hy : (round2 (sim_yield (p_par (mk_params [20242; 20424; 20606; 20788; 20970]%Z
                  1000 "UAH" (16 / 100) 2 20240 20970)
                  + p_par (mk_params [20242; 20424; 20606; 20788; 20970]%Z
                  1000 "UAH" (16 / 100) 2 20240 20970) * (16 / 100) / IZR 2) P
                  (20970 - 20270)) < 15)%R).
  { cbn [p_par]; fold SD; rewrite HSD.
    match goal with |- (round2 ?t < _)%R =>
      pose proof (round2_close t) as Hc; assert (t <= 11)%R;
      [|(unfold Rabs in Hc; destruct (Rcase_abs _); lra)] end.
    unfold sim_yield; rewrite minus_IZR.
    assert (Hd : ((1000 + 80) / P <= 6 / 5)%R).
    { apply (Rle_trans _ ((1000 + 80) / 900)); [|lra].
      unfold Rdiv; apply Rmult_le_compat_l; [lra|].
      apply Rinv_le_contravar; lra. }
    lra. }
  repeat split; assumption.
Qed.

(** ** C2 *)

Lemma round2_80 : round2 (1000 * (16 / 100) / IZR 2) = 80%R.
Proof.
  rewrite (round2_eq_cents _ 8000) by lra; lra.
Qed.

(** C2: a trade that holds the 16% semiannual bond over its maturity date
    (bought on day 20900 at 10%, sold on the maturity day 20970 at 10%) gets
    only the last coupon 80 on day 20970 as [Coupons_received]; the par 1000
    is not part of [Coupons_total], and the sell price on the maturity day is
    0, so the profit is the coupon minus the buy price, below -900. *)
Theorem trade_over_maturity_omits_par :
  exists t, trade_outcome "UA4000000001" 20900 10 20970 10 sample_df = Ok t /\
    Coupons_received t = [(20970%Z, 80%R)] /\
    Coupons_total t = 80%R /\
    Sell_price_dirty t = 0%R /\
    (1000 < Buy_price_dirty t)%R /\
    (Profit_abs t < -900)%R /\
    Days_held t = 70%Z.
Proof.
  unfold trade_outcome.
  replace (20970 <=? 20900)%Z with false by reflexivity; cbn iota.
  rewrite (secondary_coupon _ _ _ _ _ full_bond_2027) by (simpl; lra || lia).
  destruct (accrued_ok sample_df "UA4000000001" 20900 _ full_bond_2027) as [a Ha].
  cbn zeta; replace (short_or_last _ _ _) with true by reflexivity.
  rewrite Ha; cbn [bind].
  rewrite (secondary_matured _ _ 20970 10 _ full_bond_2027) by (simpl; lia).
  unfold coupons_between; rewrite full_bond_2027; cbn [bind].
  cbn [p_coupon_rate p_freq p_par p_dates p_ccy p_maturity].
  rewrite (Rleb_false (16 / 100) 0) by lra; cbn [orb Z.leb Z.compare].
  replace (filter _ [20242; 20424; 20606; 20788; 20970]%Z) with [20970]%Z
    by reflexivity.
  rewrite round2_80.
  cbn [bind map py_sum fold_left snd fst].
  replace (0 + 80)%R with (IZR 8000 / 100)%R by lra; rewrite round2_cents.
  replace (IZR 8000 / 100)%R with 80%R by lra.
  set (B := round2 _).
  assert (HB : (1050 <= B)%R).
  { unfold B; match goal with |- (_ <= round2 ?t)%R =>
      pose proof (round2_close t) as Hc; assert (1059 <= t)%R;
      [|(unfold Rabs in Hc; destruct (Rcase_abs _); lra)] end.
    unfold sim_price; rewrite minus_IZR.
    match goal with |- (_ <= ?n / ?d)%R =>
      apply (Rmult_le_reg_r d); [lra|];
      replace (n / d * d)%R with n by (field; lra); lra end. }
  eexists; split; [reflexivity|]; cbn.
  repeat split; try reflexivity; try lra.
  match goal with |- (round2 ?t < _)%R =>
    pose proof (round2_close t) as Hc;
    unfold Rabs in Hc; destruct (Rcase_abs _); lra end.
Qed.

(** ** C8 *)

Lemma primary_zero_coupon df isin calc_date yp p :
  _full_coupon_schedule_and_params df isin = Ok p ->
  (calc_date < p_maturity p)%Z ->
  (p_coupon_rate p <= 0)%R \/ (p_freq p <= 0)%Z ->
  primary_price_from_yield_minfin calc_date isin yp df =
  let price := sim_price (p_par p) (yp / 100) (p_maturity p - calc_date) in
  Ok (mk_pricing (round2 price) 0 (round2 price) (p_ccy p) "SIM").
Proof.
  intros H Hc Hz; unfold primary_price_from_yield_minfin; rewrite H; cbn [bind].
  rewrite (proj2 (Z.leb_gt _ _) Hc).
  replace (Rltb 0 (p_coupon_rate p) && (0 <? p_freq p)%Z) with false; [reflexivity|].
  destruct Hz as [Hz|Hz].
  - rewrite (Rltb_false _ _ Hz); reflexivity.
  - rewrite (proj2 (Z.ltb_ge _ _) Hz), andb_false_r; reflexivity.
Qed.

Lemma py_pow_pos b t : (0 < py_pow b t)%R.
Proof. unfold py_pow, Rpower; apply exp_pos. Qed.

Lemma disc_le_base c b1 b2 t :
  (0 <= c)%R -> (0 <= t)%R -> (0 < b1 <= b2)%R ->
  (c / py_pow b2 t <= c / py_pow b1 t)%R.
Proof.
  intros Hc Ht Hb; unfold Rdiv; apply Rmult_le_compat_l; [exact Hc|].
  apply Rinv_le_contravar; [apply py_pow_pos|].
  unfold py_pow; apply Rle_Rpower_l; assumption.
Qed.

Lemma disc_lt_base c b1 b2 t :
  (0 < c)%R -> (0 < t)%R -> (0 < b1 < b2)%R ->
  (c / py_pow b2 t < c / py_pow b1 t)%R.
Proof.
  intros Hc Ht Hb; unfold Rdiv; apply Rmult_lt_compat_l; [exact Hc|].
  apply Rinv_lt_contravar; [apply Rmult_lt_0_compat; apply py_pow_pos|].
  unfold py_pow; apply Rlt_Rpower_l; assumption.
Qed.

Lemma fold_mono (f1 f2 : Z -> R) l :
  (forall d, In d l -> (f2 d <= f1 d)%R) ->
  forall a b, (a <= b)%R ->
  (fold_left (fun t d => t + f2 d) l a <= fold_left (fun t d => t + f1 d) l b)%R.
Proof.
  induction l as [|x t IH]; intros Hf a b Hab; simpl; [exact Hab|].
  apply IH; [intros d Hd; apply Hf; right; exact Hd|].
  pose proof (Hf x (or_introl eq_refl)); lra.
Qed.

Lemma fold_map_mono (f1 f2 : Z -> R) l a b :
  (forall d, In d l -> (f2 d <= f1 d)%R) -> (a <= b)%R ->
  (fold_left Rplus (map f2 l) a <= fold_left Rplus (map f1 l) b)%R.
Proof.
  intros Hf Hab; rewrite <- !fold_left_sum_map; apply fold_mono; assumption.
Qed.

Lemma sim_price_lt a y1 y2 days :
  (0 < a)%R -> (0 < days)%Z -> (0 <= y1 < y2)%R ->
  (sim_price a y2 days < sim_price a y1 days)%R.
Proof.
  intros Ha Hd Hy; unfold sim_price.
  assert (Hk : (0 < IZR days / 365)%R)
    by (apply IZR_lt in Hd; unfold Rdiv; apply Rmult_lt_0_compat; lra).
  unfold Rdiv at 1 3; apply Rmult_lt_compat_l; [exact Ha|].
  apply Rinv_lt_contravar; [apply Rmult_lt_0_compat; nra | nra].
Qed.

Lemma ytm_total_lt future calc_date days SD par y1 y2 :
  (0 <= SD)%R -> (0 < par)%R -> (0 < days)%Z ->
  (forall d, In d future -> (calc_date <= d)%Z) -> (0 <= y1 < y2)%R ->
  (ytm_total future calc_date days SD par y2 < ytm_total future calc_date days SD par y1)%R.
Proof.
  intros HSD Hp Hd Hf Hy; unfold ytm_total.
  apply Rplus_le_lt_compat.
  - apply (fold_mono (fun d => SD / py_pow (1 + y1) (IZR (d - calc_date) / 365))%R
                     (fun d => SD / py_pow (1 + y2) (IZR (d - calc_date) / 365))%R);
      [|lra].
    intros d Hin; apply disc_le_base; [exact HSD| |lra].
    pose proof (Hf d Hin) as Hle; apply Rmult_le_pos; [apply IZR_le; lia | lra].
  - apply disc_lt_base; [exact Hp| |lra].
    apply IZR_lt in Hd; unfold Rdiv; apply Rmult_lt_0_compat; lra.
Qed.

Lemma minfin_total_lt future calc_date maturity KDP0 SD par b1 b2 :
  NoDup future -> In maturity future ->
  (0 <= SD)%R -> (0 < par)%R -> (0 < KDP0)%Z -> (calc_date < maturity)%Z ->
  (forall d, In d future -> (calc_date <= d)%Z) -> (0 < b1 < b2)%R ->
  (minfin_total future calc_date maturity KDP0 SD par b2
   < minfin_total future calc_date maturity KDP0 SD par b1)%R.
Proof.
  intros Hn Hm HSD Hp Hk Hc Hf Hb; unfold minfin_total.
  rewrite (minfin_fold_split
             (fun d => SD / py_pow b2 (IZR (d - calc_date) / IZR KDP0))%R
             (fun d => par / py_pow b2 (IZR (d - calc_date) / IZR KDP0))%R
             maturity future 0%R Hn).
  rewrite (minfin_fold_split
             (fun d => SD / py_pow b1 (IZR (d - calc_date) / IZR KDP0))%R
             (fun d => par / py_pow b1 (IZR (d - calc_date) / IZR KDP0))%R
             maturity future 0%R Hn).
  replace (py_in maturity future) with true by (symmetry; apply py_in_In; exact Hm).
  assert (HK : (0 < IZR KDP0)%R) by (apply IZR_lt; exact Hk).
  apply Rplus_le_lt_compat.
  - apply fold_map_mono; [|lra].
    intros d Hin; apply disc_le_base; [exact HSD| |lra].
    pose proof (Hf d Hin) as Hle; unfold Rdiv; apply Rmult_le_pos;
      [apply IZR_le; lia | left; apply Rinv_0_lt_compat; exact HK].
  - apply disc_lt_base; [exact Hp| |lra].
    unfold Rdiv; apply Rmult_lt_0_compat;
      [apply IZR_lt; lia | apply Rinv_0_lt_compat; exact HK].
Qed.

Lemma future_dates_ge dates calc_date d :
  In d (future_dates dates calc_date) -> (calc_date <= d)%Z.
Proof. intros Hin; apply filter_In in Hin; destruct Hin as [_ Hle]; apply Z.leb_le; exact Hle. Qed.

Lemma secondary_unrounded_zero df isin calc_date yp p :
  _full_coupon_schedule_and_params df isin = Ok p ->
  (calc_date < p_maturity p)%Z ->
  (p_coupon_rate p <= 0)%R \/ (p_freq p <= 0)%Z ->
  secondary_price_unrounded calc_date isin yp df
  = Ok (sim_price (p_par p) (yp / 100) (p_maturity p - calc_date)).
Proof.
  intros H Hc Hz; unfold secondary_price_unrounded; rewrite H; cbn [bind].
  rewrite (proj2 (Z.leb_gt _ _) Hc).
  replace (Rltb 0 (p_coupon_rate p) && (0 <? p_freq p)%Z) with false; [reflexivity|].
  destruct Hz as [Hz|Hz].
  - rewrite (Rltb_false _ _ Hz); reflexivity.
  - rewrite (proj2 (Z.ltb_ge _ _) Hz), andb_false_r; reflexivity.
Qed.

Lemma secondary_unrounded_coupon df isin calc_date yp p :
  _full_coupon_schedule_and_params df isin = Ok p ->
  (calc_date < p_maturity p)%Z ->
  (0 < p_coupon_rate p)%R -> (0 < p_freq p)%Z ->
  secondary_price_unrounded calc_date isin yp df =
  let y := (yp / 100)%R in
  let days_to_mty := (p_maturity p - calc_date)%Z in
  let SD := (p_par p * p_coupon_rate p / IZR (p_freq p))%R in
  let future := future_dates (p_dates p) calc_date in
  if short_or_last days_to_mty future (p_maturity p)
  then Ok (sim_price (p_par p + SD) y days_to_mty)
  else Ok (ytm_total future calc_date days_to_mty SD (p_par p) y).
Proof.
  intros H Hc Hcr Hf; unfold secondary_price_unrounded; rewrite H; cbn [bind].
  rewrite (proj2 (Z.leb_gt _ _) Hc), (Rltb_true _ _ Hcr), (proj2 (Z.ltb_lt _ _) Hf).
  reflexivity.
Qed.

Lemma primary_unrounded_zero df isin calc_date yp p :
  _full_coupon_schedule_and_params df isin = Ok p ->
  (calc_date < p_maturity p)%Z ->
  (p_coupon_rate p <= 0)%R \/ (p_freq p <= 0)%Z ->
  primary_price_unrounded calc_date isin yp df
  = Ok (sim_price (p_par p) (yp / 100) (p_maturity p - calc_date)).
Proof.
  intros H Hc Hz; unfold primary_price_unrounded; rewrite H; cbn [bind].
  rewrite (proj2 (Z.leb_gt _ _) Hc).
  replace (Rltb 0 (p_coupon_rate p) && (0 <? p_freq p)%Z) with false; [reflexivity|].
  destruct Hz as [Hz|Hz].
  - rewrite (Rltb_false _ _ Hz); reflexivity.
  - rewrite (proj2 (Z.ltb_ge _ _) Hz), andb_false_r; reflexivity.
Qed.

Lemma primary_unrounded_coupon df isin calc_date yp p :
  _full_coupon_schedule_and_params df isin = Ok p ->
  (calc_date < p_maturity p)%Z ->
  (0 < p_coupon_rate p)%R -> (0 < p_freq p)%Z ->
  primary_price_unrounded calc_date isin yp df =
  let SD := (p_par p * p_coupon_rate p / IZR (p_freq p))%R in
  match future_dates (p_dates p) calc_date with
  | [] => Ok 0%R
  | next_c :: _ =>
      let future := future_dates (p_dates p) calc_date in
      let KDP0 := kdp0_of (p_dates p) (p_freq p) next_c in
      let base := (1 + yp / 100 / IZR (p_freq p))%R in
      Ok (minfin_total future calc_date (p_maturity p) KDP0 SD (p_par p) base)
  end.
Proof.
  intros H Hc Hcr Hf; unfold primary_price_unrounded; rewrite H; cbn [bind].
  rewrite (proj2 (Z.leb_gt _ _) Hc), (Rltb_true _ _ Hcr), (proj2 (Z.ltb_lt _ _) Hf).
  reflexivity.
Qed.

Lemma secondary_mono df isin calc_date y1 y2 p :
  _full_coupon_schedule_and_params df isin = Ok p ->
  (calc_date < p_maturity p)%Z -> (0 < p_par p)%R -> (0 <= y1 < y2)%R ->
  exists p1 p2 u1 u2,
    secondary_price_from_yield calc_date isin y1 df = Ok p1 /\
    secondary_price_from_yield calc_date isin y2 df = Ok p2 /\
    pr_formula p1 = pr_formula p2 /\
    secondary_price_unrounded calc_date isin y1 df = Ok u1 /\
    secondary_price_unrounded calc_date isin y2 df = Ok u2 /\
    pr_dirty p1 = round2 u1 /\ pr_dirty p2 = round2 u2 /\ (u2 < u1)%R.
Proof.
  intros H Hc Hp Hy.
  assert (Hd : (0 < p_maturity p - calc_date)%Z) by lia.
  destruct (Rlt_dec 0 (p_coupon_rate p)) as [Hcr|Hcr];
    [destruct (Z_lt_dec 0 (p_freq p)) as [Hf|Hf]|].
  - destruct (accrued_ok _ _ calc_date _ H) as [ai Hai].
    rewrite (secondary_coupon _ _ _ y1 _ H Hc Hcr Hf),
            (secondary_coupon _ _ _ y2 _ H Hc Hcr Hf),
            (secondary_unrounded_coupon _ _ _ y1 _ H Hc Hcr Hf),
            (secondary_unrounded_coupon _ _ _ y2 _ H Hc Hcr Hf).
    cbv zeta; rewrite Hai; cbn [bind].
    assert (HSD : (0 <= p_par p * p_coupon_rate p / IZR (p_freq p))%R).
    { apply IZR_lt in Hf; unfold Rdiv; apply Rmult_le_pos;
        [nra | left; apply Rinv_0_lt_compat; exact Hf]. }
    destruct (short_or_last _ _ _); do 4 eexists; repeat split; try reflexivity.
    + apply sim_price_lt; [lra | exact Hd | lra].
    + apply ytm_total_lt; [exact HSD | exact Hp | exact Hd | | lra].
      intros d Hin; apply (future_dates_ge _ _ _ Hin).
  - rewrite (secondary_zero_coupon _ _ _ y1 _ H Hc (or_intror (proj1 (Z.nlt_ge _ _) Hf))),
            (secondary_zero_coupon _ _ _ y2 _ H Hc (or_intror (proj1 (Z.nlt_ge _ _) Hf))),
            (secondary_unrounded_zero _ _ _ y1 _ H Hc (or_intror (proj1 (Z.nlt_ge _ _) Hf))),
            (secondary_unrounded_zero _ _ _ y2 _ H Hc (or_intror (proj1 (Z.nlt_ge _ _) Hf))).
    cbv zeta; do 4 eexists; repeat split; try reflexivity.
    apply sim_price_lt; [exact Hp | exact Hd | lra].
  - rewrite (secondary_zero_coupon _ _ _ y1 _ H Hc (or_introl (Rnot_lt_le _ _ Hcr))),
            (secondary_zero_coupon _ _ _ y2 _ H Hc (or_introl (Rnot_lt_le _ _ Hcr))),
            (secondary_unrounded_zero _ _ _ y1 _ H Hc (or_introl (Rnot_lt_le _ _ Hcr))),
            (secondary_unrounded_zero _ _ _ y2 _ H Hc (or_introl (Rnot_lt_le _ _ Hcr))).
    cbv zeta; do 4 eexists; repeat split; try reflexivity.
    apply sim_price_lt; [exact Hp | exact Hd | lra].
Qed.

Lemma primary_mono df isin calc_date y1 y2 p :
  _full_coupon_schedule_and_params df isin = Ok p ->
  (calc_date < p_maturity p)%Z -> (0 < p_par p)%R -> (0 <= y1 < y2)%R ->
  exists p1 p2 u1 u2,
    primary_price_from_yield_minfin calc_date isin y1 df = Ok p1 /\
    primary_price_from_yield_minfin calc_date isin y2 df = Ok p2 /\
    pr_formula p1 = pr_formula p2 /\
    primary_price_unrounded calc_date isin y1 df = Ok u1 /\
    primary_price_unrounded calc_date isin y2 df = Ok u2 /\
    pr_dirty p1 = round2 u1 /\ pr_dirty p2 = round2 u2 /\ (u2 < u1)%R.
Proof.
  intros H Hc Hp Hy.
  assert (Hd : (0 < p_maturity p - calc_date)%Z) by lia.
  destruct (Rlt_dec 0 (p_coupon_rate p)) as [Hcr|Hcr];
    [destruct (Z_lt_dec 0 (p_freq p)) as [Hf|Hf]|].
  - destruct (full_dates_ok _ _ _ H) as [Hs Hm].
    destruct (future_dates_nonempty _ _ _ Hm Hc) as [next [rest E]].
    destruct (future_dates_head _ _ _ _ Hs E) as [Hn _].
    destruct (prev_coupon_lt _ (p_freq p) _ Hs Hn) as [Hpv Hk].
    destruct (accrued_ok _ _ calc_date _ H) as [ai Hai].
    rewrite (primary_coupon _ _ _ y1 _ H Hc Hcr Hf),
            (primary_coupon _ _ _ y2 _ H Hc Hcr Hf),
            (primary_unrounded_coupon _ _ _ y1 _ H Hc Hcr Hf),
            (primary_unrounded_coupon _ _ _ y2 _ H Hc Hcr Hf).
    rewrite E; cbv zeta; rewrite Hai; cbn [bind].
    apply IZR_lt in Hf.
    assert (HSD : (0 <= p_par p * p_coupon_rate p / IZR (p_freq p))%R).
    { unfold Rdiv; apply Rmult_le_pos;
        [nra | left; apply Rinv_0_lt_compat; exact Hf]. }
    assert (Hq : (0 < / IZR (p_freq p))%R) by (apply Rinv_0_lt_compat; exact Hf).
    do 4 eexists; repeat split; try reflexivity.
    apply minfin_total_lt.
    + rewrite <- E; apply NoDup_filter, sorted_lt_nodup; exact Hs.
    + rewrite <- E; apply filter_In; split; [exact Hm | apply Z.leb_le; lia].
    + exact HSD.
    + exact Hp.
    + rewrite Hk; lia.
    + exact Hc.
    + rewrite <- E; intros d Hin; apply (future_dates_ge _ _ _ Hin).
    + unfold Rdiv; split; nra.
  - rewrite (primary_zero_coupon _ _ _ y1 _ H Hc (or_intror (proj1 (Z.nlt_ge _ _) Hf))),
            (primary_zero_coupon _ _ _ y2 _ H Hc (or_intror (proj1 (Z.nlt_ge _ _) Hf))),
            (primary_unrounded_zero _ _ _ y1 _ H Hc (or_intror (proj1 (Z.nlt_ge _ _) Hf))),
            (primary_unrounded_zero _ _ _ y2 _ H Hc (or_intror (proj1 (Z.nlt_ge _ _) Hf))).
    cbv zeta; do 4 eexists; repeat split; try reflexivity.
    apply sim_price_lt; [exact Hp | exact Hd | lra].
  - rewrite (primary_zero_coupon _ _ _ y1 _ H Hc (or_introl (Rnot_lt_le _ _ Hcr))),
            (primary_zero_coupon _ _ _ y2 _ H Hc (or_introl (Rnot_lt_le _ _ Hcr))),
            (primary_unrounded_zero _ _ _ y1 _ H Hc (or_introl (Rnot_lt_le _ _ Hcr))),
            (primary_unrounded_zero _ _ _ y2 _ H Hc (or_introl (Rnot_lt_le _ _ Hcr))).
    cbv zeta; do 4 eexists; repeat split; try reflexivity.
    apply sim_price_lt; [exact Hp | exact Hd | lra].
Qed.

Lemma round2_near x k :
  (IZR k / 100 - 1 / 200 < x < IZR k / 100 + 1 / 200)%R -> round2 x = (IZR k / 100)%R.
Proof.
  intros Hx; unfold round2; f_equal; f_equal.
  set (s := (x * 100)%R).
  assert (Hs : (IZR k - 1 / 2 < s < IZR k + 1 / 2)%R) by (unfold s; lra).
  unfold round_half_even.
  destruct (Rle_lt_dec (IZR k) s) as [Hle|Hlt].
  - replace (Int_part s) with k by (apply Int_part_spec; lra).
    rewrite Rltb_true by lra; reflexivity.
  - replace (Int_part s) with (k - 1)%Z
      by (apply Int_part_spec; rewrite minus_IZR; lra).
    rewrite minus_IZR.
    rewrite Rltb_false by lra; rewrite Rltb_true by lra; lia.
Qed.

Lemma full_bill_2027 :
  _full_coupon_schedule_and_params sample_df "UA4000000003"
  = Ok (mk_params [20242; 20424; 20606; 20788; 20970]%Z 1000 "UAH" 0 2 20240 20970).
Proof. reflexivity. Qed.

(** C8 (counterexample): the zero-coupon bill one year before maturity is
    priced at 800.00 both at 25% and at 25.0001%: the rounded dirty price is
    not strictly decreasing in the yield. *)
Lemma rounding_flattens_price :
  exists p1 p2,
    secondary_price_from_yield 20605 "UA4000000003" 25 sample_df = Ok p1 /\
    secondary_price_from_yield 20605 "UA4000000003" (25 + 1 / 10000) sample_df = Ok p2 /\
    pr_dirty p1 = 800%R /\ pr_dirty p2 = 800%R.
Proof.
  rewrite !(secondary_zero_coupon _ _ 20605 _ _ full_bill_2027)
    by (simpl; (lia || (left; lra))).
  cbv zeta; do 2 eexists; split; [reflexivity|]; split; [reflexivity|].
  cbn [pr_dirty p_par p_maturity]; unfold sim_price; rewrite minus_IZR.
  split.
  - rewrite (round2_eq_cents _ 80000); [lra|].
    replace (1 + 25 / 100 * ((IZR 20970 - IZR 20605) / 365))%R with (5 / 4)%R by lra.
    field.
  - rewrite (round2_near _ 80000); [lra|].
    match goal with |- (_ < ?n / ?d < _)%R =>
      assert (Hd : (d = 1250001 / 1000000)%R) by lra; rewrite Hd end.
    split; apply (Rmult_lt_reg_r (1250001 / 1000000)); try lra;
      unfold Rdiv at 4; field_simplify; lra.
Qed.

(** C8 (amended): for every bond with positive par and every reference date
    before maturity, and yields [0 <= y1 < y2] (in percent), the secondary
    pricer and the primary (Minfin) pricer each use the same formula at both
    yields; the unrounded price [u] (the value the pricer rounds,
    [secondary_price_unrounded] and [primary_price_unrounded]) is strictly
    decreasing in the yield, and the returned dirty price [round(u, 2)] is
    non-increasing. *)
Theorem dirty_price_nonincreasing df isin calc_date y1 y2 p :
  _full_coupon_schedule_and_params df isin = Ok p ->
  (calc_date < p_maturity p)%Z -> (0 < p_par p)%R -> (0 <= y1 < y2)%R ->
  (exists p1 p2 u1 u2,
    secondary_price_from_yield calc_date isin y1 df = Ok p1 /\
    secondary_price_from_yield calc_date isin y2 df = Ok p2 /\
    pr_formula p1 = pr_formula p2 /\
    secondary_price_unrounded calc_date isin y1 df = Ok u1 /\
    secondary_price_unrounded calc_date isin y2 df = Ok u2 /\
    pr_dirty p1 = round2 u1 /\ pr_dirty p2 = round2 u2 /\ (u2 < u1)%R /\
    (pr_dirty p2 <= pr_dirty p1)%R) /\
  (exists p1 p2 u1 u2,
    primary_price_from_yield_minfin calc_date isin y1 df = Ok p1 /\
    primary_price_from_yield_minfin calc_date isin y2 df = Ok p2 /\
    pr_formula p1 = pr_formula p2 /\
    primary_price_unrounded calc_date isin y1 df = Ok u1 /\
    primary_price_unrounded calc_date isin y2 df = Ok u2 /\
    pr_dirty p1 = round2 u1 /\ pr_dirty p2 = round2 u2 /\ (u2 < u1)%R /\
    (pr_dirty p2 <= pr_dirty p1)%R).
Proof.
  intros H Hc Hp Hy; split.
  - destruct (secondary_mono _ _ _ _ _ _ H Hc Hp Hy)
      as (p1 & p2 & u1 & u2 & A & B & C & U1 & U2 & D & E & F).
    exists p1, p2, u1, u2; repeat split; try assumption.
    rewrite D, E; apply round2_le; lra.
  - destruct (primary_mono _ _ _ _ _ _ H Hc Hp Hy)
      as (p1 & p2 & u1 & u2 & A & B & C & U1 & U2 & D & E & F).
    exists p1, p2, u1, u2; repeat split; try assumption.
    rewrite D, E; apply round2_le; lra.
Qed.

Lemma dirty_price_nonincreasing_witness :
  (20300 < 20970)%Z /\
  exists p1 p2,
    secondary_price_from_yield 20300 "UA4000000001" 10 sample_df = Ok p1 /\
    secondary_price_from_yield 20300 "UA4000000001" 16 sample_df = Ok p2 /\
    (pr_dirty p2 <= pr_dirty p1)%R.
Proof.
  split; [lia|].
  destruct (dirty_price_nonincreasing sample_df "UA4000000001" 20300 10 16 _
              full_bond_2027 ltac:(simpl; lia) ltac:(simpl; lra) ltac:(lra))
    as [(p1 & p2 & _ & _ & A & B & _ & _ & _ & _ & _ & _ & C) _].
  exists p1, p2; split; [exact A | split; [exact B | exact C]].
Defined.

(* ================================================================== *)
(** * Further properties of the engine *)

(** ** The rows of [build_cashflow_schedule] *)

Lemma key_coupon d a c : cf_key (mk_cf d a coupon_type c) = (d, 0%Z).
Proof. reflexivity. Qed.

Lemma key_redemption d a c : cf_key (mk_cf d a redemption_type c) = (d, 1%Z).
Proof. reflexivity. Qed.

Lemma insert_at_end x l :
  (forall y, In y l -> key_ltb (cf_key x) (cf_key y) = false) ->
  insert_by_key x l = (l ++ [x])%list.
Proof.
  induction l as [|y t IH]; intros Hl; simpl; [reflexivity|].
  rewrite (Hl y (or_introl eq_refl)), IH; [reflexivity|].
  intros z Hz; apply Hl; right; exact Hz.
Qed.

Lemma strongly_sorted_app {A} (Rel : A -> A -> Prop) l1 l2 :
  StronglySorted Rel (l1 ++ l2) -> forall a b, In a l1 -> In b l2 -> Rel a b.
Proof.
  induction l1 as [|x t IH]; intros H a b Ha Hb; [destruct Ha|].
  inversion H as [|? ? Hs Hf]; subst.
  destruct Ha as [<-|Ha].
  - rewrite Forall_forall in Hf; apply Hf, in_or_app; right; exact Hb.
  - apply IH; assumption.
Qed.

Definition key_not_before (a b : cf_row) : Prop :=
  key_ltb (cf_key b) (cf_key a) = false.

Lemma fold_insert_sorted l acc :
  StronglySorted key_not_before (acc ++ l) ->
  fold_left (fun acc x => insert_by_key x acc) l acc = (acc ++ l)%list.
Proof.
  revert acc; induction l as [|x t IH]; intros acc H; simpl; [rewrite app_nil_r; reflexivity|].
  rewrite insert_at_end.
  - rewrite IH; [rewrite <- app_assoc; reflexivity|].
    rewrite <- app_assoc; exact H.
  - intros y Hy; apply (strongly_sorted_app _ acc (x :: t) H y x Hy (or_introl eq_refl)).
Qed.

Lemma filter_none {A} (f : A -> bool) l :
  (forall x, In x l -> f x = false) -> filter f l = [].
Proof.
  induction l as [|x t IH]; intros H; simpl; [reflexivity|].
  rewrite (H x (or_introl eq_refl)); apply IH; intros y Hy; apply H; right; exact Hy.
Qed.

Lemma filter_all {A} (f : A -> bool) l :
  (forall x, In x l -> f x = true) -> filter f l = l.
Proof.
  induction l as [|x t IH]; intros H; simpl; [reflexivity|].
  rewrite (H x (or_introl eq_refl)), IH; [reflexivity|].
  intros y Hy; apply H; right; exact Hy.
Qed.

Lemma sorted_filter (f : Z -> bool) l : Sorted Z.lt l -> Sorted Z.lt (filter f l).
Proof.
  intros H; apply StronglySorted_Sorted.
  apply Sorted_StronglySorted in H; [|intros ? ? ?; lia].
  induction H as [|x t Hs IH Hf]; simpl; [constructor|].
  destruct (f x); [|exact IH].
  constructor; [exact IH|].
  rewrite Forall_forall in *; intros y Hy; apply filter_In in Hy; apply Hf, Hy.
Qed.

Section CouponRows.
Variables (A : R) (ccy : string) (maturity : Z) (par : R).

Let cp (d : Z) : cf_row := mk_cf d A coupon_type ccy.
Let red : cf_row := mk_cf maturity par redemption_type ccy.

Lemma coupon_rows_sorted D :
  Sorted Z.lt D -> StronglySorted key_not_before (map cp D).
Proof.
  intros H; apply Sorted_StronglySorted in H; [|intros ? ? ?; lia].
  induction H as [|x t Hs IH Hf]; simpl; constructor; [exact IH|].
  rewrite Forall_forall in *; intros y Hy; apply in_map_iff in Hy as [z [<- Hz]].
  unfold key_not_before, cp; rewrite !key_coupon; unfold key_ltb; simpl.
  pose proof (Hf z Hz).
  destruct (Z.ltb_spec z x); [lia|]; destruct (Z.eqb_spec z x); [lia|reflexivity].
Qed.

Lemma insert_redemption D :
  Sorted Z.lt D ->
  insert_by_key red (map cp D)
  = (map cp (filter (fun d => (d <=? maturity)%Z) D)
     ++ red :: map cp (filter (fun d => (maturity <? d)%Z) D))%list.
Proof.
  induction D as [|d t IH]; intros Hs; simpl; [reflexivity|].
  unfold red at 1, cp at 1; rewrite key_redemption, key_coupon; unfold key_ltb; simpl.
  destruct (Z.ltb_spec maturity d) as [Hlt|Hge]; simpl.
  - replace (d <=? maturity)%Z with false by (symmetry; apply Z.leb_gt; lia).
    assert (Ht : forall x, In x t -> (d < x)%Z) by (apply sorted_lt_head; exact Hs).
    rewrite filter_none by (intros x Hx; apply Z.leb_gt; pose proof (Ht x Hx); lia).
    rewrite (filter_all _ t) by (intros x Hx; apply Z.ltb_lt; pose proof (Ht x Hx); lia).
    reflexivity.
  - replace (d <=? maturity)%Z with true by (symmetry; apply Z.leb_le; lia).
    replace (d =? maturity)%Z with (maturity =? d)%Z by apply Z.eqb_sym.
    destruct (maturity =? d)%Z; simpl;
    rewrite IH by (inversion Hs; assumption); reflexivity.
Qed.

Lemma sort_coupon_rows D :
  Sorted Z.lt D ->
  sort_by_key (map cp D ++ [red])
  = (map cp (filter (fun d => (d <=? maturity)%Z) D)
     ++ red :: map cp (filter (fun d => (maturity <? d)%Z) D))%list.
Proof.
  intros Hs; unfold sort_by_key; rewrite fold_left_app.
  rewrite (fold_insert_sorted (map cp D) []) by (apply coupon_rows_sorted; exact Hs).
  simpl; apply insert_redemption; exact Hs.
Qed.

End CouponRows.

Lemma cf_same_key a b : cf_same a b = true -> cf_key a = cf_key b.
Proof.
  unfold cf_same, cf_key; intros H.
  apply andb_prop in H as [H _]; apply andb_prop in H as [H _];
    apply andb_prop in H as [Hd Ht].
  apply Z.eqb_eq in Hd; apply String.eqb_eq in Ht; rewrite Hd, Ht; reflexivity.
Qed.

Lemma drop_dup_id seen l :
  (forall x s, In x l -> In s seen -> cf_key x <> cf_key s) ->
  NoDup (map cf_key l) ->
  drop_dup_loop seen l = l.
Proof.
  revert seen; induction l as [|x t IH]; intros seen Hs Hn; simpl; [reflexivity|].
  inversion Hn as [|? ? Hx Ht]; subst.
  destruct (existsb (cf_same x) seen) eqn:E.
  - apply existsb_exists in E as [s [Hin Hsame]].
    exfalso; apply (Hs x s (or_introl eq_refl) Hin), cf_same_key, Hsame.
  - f_equal; apply IH; [|exact Ht].
    intros y s Hy [<-|Hin].
    + intros Heq; apply Hx; rewrite <- Heq; apply in_map, Hy.
    + apply Hs; [right|]; assumption.
Qed.

Lemma coupon_keys_nodup A ccy D :
  NoDup D -> NoDup (map cf_key (map (fun d => mk_cf d A coupon_type ccy) D)).
Proof.
  induction 1 as [|x t Hx Ht IH]; simpl; constructor; [|exact IH].
  rewrite key_coupon; intros Hin.
  apply in_map_iff in Hin as [r [Hk Hr]]; apply in_map_iff in Hr as [z [<- Hz]].
  rewrite key_coupon in Hk; injection Hk as ->; contradiction.
Qed.

Lemma insert_by_key_perm x l : Permutation (insert_by_key x l) (x :: l).
Proof.
  induction l as [|y t IH]; simpl; [reflexivity|].
  destruct (key_ltb _ _); [reflexivity|].
  rewrite IH; apply perm_swap.
Qed.

Lemma sort_by_key_perm l : Permutation (sort_by_key l) l.
Proof.
  unfold sort_by_key.
  assert (G : forall acc, Permutation (fold_left (fun acc x => insert_by_key x acc) l acc)
                                      (acc ++ l)).
  { induction l as [|x t IH]; intros acc; simpl; [rewrite app_nil_r; reflexivity|].
    rewrite IH, insert_by_key_perm.
    replace (acc ++ x :: t)%list with ((acc ++ [x]) ++ t)%list
      by (rewrite <- app_assoc; reflexivity).
    apply Permutation_app_tail; apply Permutation_cons_append. }
  apply G.
Qed.

Lemma cashflow_rows_plain df isin from_date p :
  _full_coupon_schedule_and_params df isin = Ok p ->
  let A := round2 (p_par p * p_coupon_rate p / IZR (p_freq p)) in
  (p_coupon_rate p <= 0)%R \/ (p_freq p <= 0)%Z \/ (A <= 0)%R ->
  build_cashflow_schedule df isin from_date
  = Ok ([mk_cf (p_maturity p) (p_par p) redemption_type (p_ccy p)],
        p_coupon_rate p, p_ccy p).
Proof.
  intros H A Hz.
  unfold build_cashflow_schedule; rewrite H; cbn [bind].
  replace (Rltb 0 (if Rltb 0 (p_coupon_rate p) && (0 <? p_freq p)%Z
                   then round2 (p_par p * p_coupon_rate p / IZR (Z.max 1 (p_freq p)))
                   else 0%R)) with false; [reflexivity|].
  destruct (Rlt_dec 0 (p_coupon_rate p)) as [Hc|Hc];
    [rewrite (Rltb_true _ _ Hc) | rewrite (Rltb_false _ _ (Rnot_lt_le _ _ Hc))].
  - destruct (Z.ltb_spec 0 (p_freq p)) as [Hf|Hf]; simpl.
    + rewrite Z.max_r by lia; symmetry; apply Rltb_false.
      destruct Hz as [Hz|[Hz|Hz]]; [lra|lia|exact Hz].
    + symmetry; apply Rltb_false; lra.
  - simpl; symmetry; apply Rltb_false; lra.
Qed.

Lemma cashflow_rows_coupon df isin from_date p :
  _full_coupon_schedule_and_params df isin = Ok p ->
  let D := match from_date with
           | Some f => filter (fun d => (f <=? d)%Z) (p_dates p)
           | None => p_dates p
           end in
  let A := round2 (p_par p * p_coupon_rate p / IZR (p_freq p)) in
  let red := mk_cf (p_maturity p) (p_par p) redemption_type (p_ccy p) in
  let cp := fun d => mk_cf d A coupon_type (p_ccy p) in
  (0 < p_coupon_rate p)%R -> (0 < p_freq p)%Z -> (0 < A)%R ->
  build_cashflow_schedule df isin from_date
  = Ok ((map cp (filter (fun d => (d <=? p_maturity p)%Z) D)
         ++ red :: map cp (filter (fun d => (p_maturity p <? d)%Z) D))%list,
        p_coupon_rate p, p_ccy p).
Proof.
  intros H D A red cp Hc Hf HA.
  destruct (full_dates_ok _ _ _ H) as [Hs _].
  assert (HD : Sorted Z.lt D) by (unfold D; destruct from_date; [apply sorted_filter|]; exact Hs).
  unfold build_cashflow_schedule; rewrite H; cbn [bind].
  rewrite (Rltb_true _ _ Hc), (proj2 (Z.ltb_lt _ _) Hf); simpl andb; cbv iota.
  rewrite Z.max_r by lia; fold A; rewrite (Rltb_true _ _ HA).
  fold D; fold cp red.
  change (fun d => mk_cf d A coupon_type (p_ccy p)) with cp.
  pose proof (sort_coupon_rows A (p_ccy p) (p_maturity p) (p_par p) D HD) as Es.
  fold cp red in Es; rewrite Es.
  unfold drop_duplicates; rewrite drop_dup_id; [reflexivity| intros _ _ _ []|].
  apply (Permutation_NoDup (l := map cf_key (map cp D ++ [red]))).
  - apply Permutation_map.
    rewrite <- Es; symmetry; apply sort_by_key_perm.
  - rewrite map_app; simpl.
    apply (Permutation_NoDup (l := cf_key red :: map cf_key (map cp D)));
      [apply Permutation_cons_append|].
    constructor; [|apply coupon_keys_nodup, sorted_lt_nodup; exact HD].
    unfold red; rewrite key_redemption; intros Hin.
    apply in_map_iff in Hin as [r [Hk Hr]]; apply in_map_iff in Hr as [z [<- _]].
    unfold cp in Hk; rewrite key_coupon in Hk; discriminate.
Qed.

(** X1: the rows of [build_cashflow_schedule].  A coupon row is emitted for
    every schedule date on or after [from_date] only when the coupon amount
    [round(par * couponRate / freq, 2)] is positive; there is always exactly
    one redemption row [(maturity, par)], even when [from_date] is after
    maturity.  The rows come in date order, the coupon of the maturity date
    just before the redemption, and schedule dates after maturity (possible
    with payment dates from the row) after it; no row is dropped as a
    duplicate. *)
Theorem build_cashflow_schedule_rows df isin from_date p :
  _full_coupon_schedule_and_params df isin = Ok p ->
  let D := match from_date with
           | Some f => filter (fun d => (f <=? d)%Z) (p_dates p)
           | None => p_dates p
           end in
  let A := round2 (p_par p * p_coupon_rate p / IZR (p_freq p)) in
  let red := mk_cf (p_maturity p) (p_par p) redemption_type (p_ccy p) in
  let cp := fun d => mk_cf d A coupon_type (p_ccy p) in
  ((p_coupon_rate p <= 0)%R \/ (p_freq p <= 0)%Z \/ (A <= 0)%R ->
     build_cashflow_schedule df isin from_date = Ok ([red], p_coupon_rate p, p_ccy p)) /\
  ((0 < p_coupon_rate p)%R -> (0 < p_freq p)%Z -> (0 < A)%R ->
     build_cashflow_schedule df isin from_date
     = Ok ((map cp (filter (fun d => (d <=? p_maturity p)%Z) D)
            ++ red :: map cp (filter (fun d => (p_maturity p <? d)%Z) D))%list,
           p_coupon_rate p, p_ccy p)).
Proof.
  intros H D A red cp; split.
  - apply cashflow_rows_plain; exact H.
  - apply cashflow_rows_coupon; exact H.
Qed.

Lemma build_cashflow_schedule_rows_witness :
  _full_coupon_schedule_and_params sample_df "UA4000000001"
  = Ok (mk_params [20242; 20424; 20606; 20788; 20970]%Z 1000 "UAH" (16 / 100) 2
                  20240 20970) /\
  build_cashflow_schedule sample_df "UA4000000001" (Some 20500%Z)
  = Ok ([mk_cf 20606 80 coupon_type "UAH"; mk_cf 20788 80 coupon_type "UAH";
         mk_cf 20970 80 coupon_type "UAH"; mk_cf 20970 1000 redemption_type "UAH"],
        (16 / 100)%R, "UAH").
Proof.
  split; [reflexivity|].
  destruct (build_cashflow_schedule_rows sample_df "UA4000000001" (Some 20500%Z) _
              full_bond_2027) as [_ H2].
  cbn [p_par p_coupon_rate p_freq p_maturity p_ccy p_dates] in H2.
  rewrite round2_80 in H2.
  rewrite H2 by (lra || lia); reflexivity.
Defined.

(** ** [coupons_between] reads the coupon rows of the schedule *)

Lemma filter_coupon_rows A c e l :
  filter (fun r => String.eqb (cf_type r) coupon_type && (cf_date r <=? e)%Z)
         (map (fun d => mk_cf d A coupon_type c) l)
  = map (fun d => mk_cf d A coupon_type c) (filter (fun d => (d <=? e)%Z) l).
Proof.
  induction l as [|d t IH]; simpl; [reflexivity|].
  rewrite ?String.eqb_refl; simpl; destruct (d <=? e)%Z; rewrite IH; reflexivity.
Qed.

Lemma sorted_split_at (M : Z) l :
  Sorted Z.lt l ->
  (filter (fun d => (d <=? M)%Z) l ++ filter (fun d => (M <? d)%Z) l)%list = l.
Proof.
  induction l as [|d t IH]; intros Hs; simpl; [reflexivity|].
  destruct (Z.leb_spec d M).
  - replace (M <? d)%Z with false by (symmetry; apply Z.ltb_ge; lia).
    simpl; rewrite IH by (inversion Hs; assumption); reflexivity.
  - replace (M <? d)%Z with true by (symmetry; apply Z.ltb_lt; lia).
    assert (Ht : forall x, In x t -> (d < x)%Z) by (apply sorted_lt_head; exact Hs).
    rewrite filter_none by (intros x Hx; apply Z.leb_gt; pose proof (Ht x Hx); lia).
    rewrite (filter_all _ t) by (intros x Hx; apply Z.ltb_lt; pose proof (Ht x Hx); lia).
    reflexivity.
Qed.

Lemma filter_window s e l :
  filter (fun d => (d <=? e)%Z) (filter (fun d => (s + 1 <=? d)%Z) l)
  = filter (fun d => (s <? d)%Z && (d <=? e)%Z) l.
Proof.
  induction l as [|d t IH]; simpl; [reflexivity|].
  destruct (Z.leb_spec (s + 1) d); destruct (Z.ltb_spec s d); try lia; simpl;
    rewrite IH; reflexivity.
Qed.

(** X2: for a coupon bond with a positive coupon amount, [coupons_between df
    isin start end] lists exactly the (date, amount) pairs of the coupon rows
    of [build_cashflow_schedule df isin (start + 1 day)] dated on or before
    [end], in the same order, in the currency of the schedule; the redemption
    row is never among them. *)
Theorem coupons_between_schedule df isin s e p rows cr ccy :
  _full_coupon_schedule_and_params df isin = Ok p ->
  (0 < p_coupon_rate p)%R -> (0 < p_freq p)%Z ->
  (0 < round2 (p_par p * p_coupon_rate p / IZR (p_freq p)))%R ->
  build_cashflow_schedule df isin (Some (s + 1)%Z) = Ok (rows, cr, ccy) ->
  coupons_between df isin s e
  = Ok (map (fun r => (cf_date r, cf_amount r))
            (filter (fun r => String.eqb (cf_type r) coupon_type && (cf_date r <=? e)%Z)
                    rows), ccy).
Proof.
  intros H Hc Hf HA Hb.
  rewrite (cashflow_rows_coupon df isin (Some (s + 1)%Z) p H Hc Hf HA) in Hb.
  injection Hb as <- <- <-.
  destruct (full_dates_ok _ _ _ H) as [Hs _].
  unfold coupons_between; rewrite H; cbn [bind].
  rewrite (Rleb_false _ _ Hc), (proj2 (Z.leb_gt _ _) Hf); cbn [orb].
  do 2 f_equal.
  rewrite filter_app; cbn [filter cf_type].
  replace (String.eqb redemption_type coupon_type) with false by reflexivity.
  cbn [andb]; rewrite !filter_coupon_rows, <- map_app, <- !filter_app.
  rewrite sorted_split_at by (apply sorted_filter; exact Hs).
  rewrite filter_window, map_map; reflexivity.
Qed.

Lemma coupons_between_schedule_witness :
  exists rows,
    build_cashflow_schedule sample_df "UA4000000001" (Some (20500 + 1)%Z)
    = Ok (rows, (16 / 100)%R, "UAH") /\
    coupons_between sample_df "UA4000000001" 20500 20800
    = Ok (map (fun r => (cf_date r, cf_amount r))
              (filter (fun r => String.eqb (cf_type r) coupon_type && (cf_date r <=? 20800)%Z)
                      rows), "UAH").
Proof.
  pose proof (cashflow_rows_coupon sample_df "UA4000000001" (Some (20500 + 1)%Z) _
                full_bond_2027) as Hb.
  cbn [p_par p_coupon_rate p_freq p_maturity p_ccy p_dates] in Hb.
  rewrite round2_80 in Hb.
  specialize (Hb ltac:(lra) ltac:(lia) ltac:(lra)).
  eexists; split; [exact Hb|].
  refine (coupons_between_schedule sample_df "UA4000000001" 20500 20800 _ _ _ _
            full_bond_2027 _ _ _ Hb); cbn [p_par p_coupon_rate p_freq];
    [lra | lia | rewrite round2_80; lra].
Defined.

(** ** The coupon schedule *)

Lemma mod_step_down d x step :
  (0 < step)%Z -> (x < d)%Z -> ((d - x) mod step = 0)%Z ->
  (x <= d - step)%Z /\ ((d - step - x) mod step = 0)%Z.
Proof.
  intros Hs Hx Hm.
  apply Z.mod_divide in Hm as [k Hk]; [|lia].
  assert (0 < k)%Z by nia.
  split; [nia|].
  replace (d - step - x)%Z with ((k - 1) * step)%Z by lia.
  apply Z.mod_mul; lia.
Qed.

Lemma fallback_loop_members fuel issue step d acc x :
  (0 < step)%Z -> (d - issue < Z.of_nat fuel * step)%Z ->
  In x (fallback_loop fuel issue step d acc) <->
  In x acc \/ ((issue <= x <= d)%Z /\ ((d - x) mod step = 0)%Z).
Proof.
  revert d acc; induction fuel as [|fuel IH]; intros d acc Hs Hf; simpl.
  - split; [left; assumption|]; intros [H|H]; [assumption | lia].
  - destruct (Z.leb_spec issue d) as [Hd|Hd].
    + rewrite IH by lia; simpl; split.
      * intros [[<-|H]|[H1 H2]]; [right | left | right].
        -- rewrite Z.sub_diag; split; [lia | reflexivity].
        -- exact H.
        -- split; [lia|].
           replace (d - x)%Z with (d - step - x + 1 * step)%Z by lia.
           rewrite Z.mod_add by lia; exact H2.
      * intros [H|[H1 H2]]; [left; right; exact H|].
        destruct (Z.eq_dec x d) as [->|Hne]; [left; left; reflexivity|].
        right; destruct (mod_step_down d x step Hs ltac:(lia) H2); split; [lia | assumption].
    + split; [left; assumption|]; intros [H|H]; [assumption | lia].
Qed.

Lemma fallback_members issue maturity freq x :
  In x (_fallback_coupon_dates issue maturity freq) <->
  (issue <= x <= maturity)%Z /\ ((maturity - x) mod fallback_step freq = 0)%Z.
Proof.
  unfold _fallback_coupon_dates.
  pose proof (fallback_step_pos freq) as Hst.
  rewrite fallback_loop_members by (try lia; rewrite Nat2Z.inj_add; nia).
  simpl; split; [intros [[]|H]; exact H | intros H; right; exact H].
Qed.

(** X3: [_fallback_coupon_dates issue maturity freq] (for [freq <> 0]; with
    [freq = 0] the step [365 // freq] raises) is the strictly ascending list
    of all days [d] with [issue <= d <= maturity] that lie a whole number of
    steps before maturity, the step being 182 days for [freq = 2] and
    [max(1, 365 // freq)] otherwise; it is empty when issue is after maturity. *)
Theorem fallback_coupon_dates_exact issue maturity freq :
  freq <> 0%Z ->
  Sorted Z.lt (_fallback_coupon_dates issue maturity freq) /\
  (forall x, In x (_fallback_coupon_dates issue maturity freq) <->
             (issue <= x <= maturity)%Z /\
             ((maturity - x) mod fallback_step freq = 0)%Z) /\
  ((maturity < issue)%Z -> _fallback_coupon_dates issue maturity freq = []).
Proof.
  intros _; split; [apply fallback_sorted|]; split; [apply fallback_members|].
  intros Hlt.
  destruct (_fallback_coupon_dates issue maturity freq) as [|x t] eqn:E; [reflexivity|].
  assert (Hx : In x (_fallback_coupon_dates issue maturity freq)) by (rewrite E; left; reflexivity).
  apply fallback_members in Hx; lia.
Qed.

Lemma fallback_coupon_dates_exact_witness :
  Sorted Z.lt (_fallback_coupon_dates 20606 20970 4) /\
  (forall x, In x (_fallback_coupon_dates 20606 20970 4) <->
             (20606 <= x <= 20970)%Z /\ ((20970 - x) mod fallback_step 4 = 0)%Z) /\
  ((20970 < 20606)%Z -> _fallback_coupon_dates 20606 20970 4 = []).
Proof. apply fallback_coupon_dates_exact; discriminate. Defined.

(** X4: the schedule of [_full_coupon_schedule_and_params] is strictly
    ascending and holds the maturity date.  When the row's payment-date
    columns give fewer than two distinct dates, the other dates are exactly
    the fallback grid: the days between issue and maturity a whole number of
    steps before maturity, with [Coupon_per_year] missing or 0 taken as 2
    (a 182-day step).  Otherwise they are exactly the row's payment dates. *)
Theorem full_schedule_dates df isin b p :
  lookup_row df isin = Some b ->
  _full_coupon_schedule_and_params df isin = Ok p ->
  let freq := match Coupon_per_year b with Some f => f | None => 0%Z end in
  Sorted Z.lt (p_dates p) /\ p_maturity p = Date_maturity b /\
  ((List.length (_extract_coupon_dates_from_row b) < 2)%nat ->
     forall x, In x (p_dates p) <->
       x = Date_maturity b \/
       ((Date_Issue b <= x <= Date_maturity b)%Z /\
        ((Date_maturity b - x) mod fallback_step (if (freq =? 0)%Z then 2 else freq)
         = 0)%Z)) /\
  ((2 <= List.length (_extract_coupon_dates_from_row b))%nat ->
     forall x, In x (p_dates p) <-> x = Date_maturity b \/ In x (payment_date_columns b)).
Proof.
  intros Hb H freq.
  destruct (full_dates_ok _ _ _ H) as [Hs _].
  split; [exact Hs|].
  unfold _full_coupon_schedule_and_params in H; rewrite Hb in H.
  injection H as <-; cbn [p_dates p_maturity]; split; [reflexivity|]; split.
  - intros Hl x; apply Nat.ltb_lt in Hl; rewrite Hl.
    rewrite add_maturity_members, fallback_members; reflexivity.
  - intros Hl x; apply Nat.ltb_ge in Hl; rewrite Hl.
    rewrite add_maturity_members, extract_members; reflexivity.
Qed.

Lemma full_schedule_dates_witness :
  lookup_row sample_df "UA4000000002" = Some bond_2027_q /\
  (List.length (_extract_coupon_dates_from_row bond_2027_q) < 2)%nat /\
  forall x, In x [20606; 20697; 20788; 20879; 20970]%Z <->
    x = 20970%Z \/ ((20606 <= x <= 20970)%Z /\ ((20970 - x) mod fallback_step 4 = 0)%Z).
Proof.
  split; [reflexivity|]; split; [simpl; lia|].
  destruct (full_schedule_dates sample_df "UA4000000002" bond_2027_q _ eq_refl
              full_bond_2027_q) as [_ [_ [Hf _]]].
  exact (Hf ltac:(simpl; lia)).
Defined.

(** ** Bounds of [accrued_interest] *)

Lemma kdp0_pos dates freq next : (1 <= kdp0_of dates freq next)%Z.
Proof.
  unfold kdp0_of; destruct (Z.leb_spec (next - prev_coupon_of dates freq next) 0); lia.
Qed.

Lemma accrual_fraction_bounds c prev K :
  (1 <= K)%Z ->
  (0 <= IZR (Z.min (Z.max (c - prev) 0) K) / IZR K <= 1)%R.
Proof.
  intros HK.
  assert (H1 : (1 <= IZR K)%R) by (apply IZR_le; exact HK).
  assert (H0 : (0 <= IZR (Z.min (Z.max (c - prev) 0) K))%R) by (apply IZR_le; lia).
  assert (H2 : (IZR (Z.min (Z.max (c - prev) 0) K) <= IZR K)%R) by (apply IZR_le; lia).
  split.
  - unfold Rdiv; apply Rmult_le_pos; [lra | apply Rlt_le, Rinv_0_lt_compat; lra].
  - apply (Rmult_le_reg_r (IZR K)); [lra|].
    unfold Rdiv; rewrite Rmult_assoc, Rinv_l by lra; lra.
Qed.

Lemma SD_nonneg par cr freq :
  (0 <= par)%R -> (0 < cr)%R -> (0 < freq)%Z -> (0 <= par * cr / IZR freq)%R.
Proof.
  intros Hp Hc Hf; unfold Rdiv; apply Rmult_le_pos; [apply Rmult_le_pos; lra|].
  apply Rlt_le, Rinv_0_lt_compat, IZR_lt; exact Hf.
Qed.

(** X5: for a bond with a nonnegative par value, [accrued_interest] is never
    negative and never exceeds the rounded coupon [round(SD, 2)],
    [SD = par * couponRate / freq]; it is 0 for a zero-coupon bond and for a
    reference date after every schedule date. *)
Theorem accrued_interest_bounds df isin c p a :
  _full_coupon_schedule_and_params df isin = Ok p ->
  (0 <= p_par p)%R ->
  accrued_interest c isin df = Ok a ->
  (0 <= a)%R /\
  ((0 < p_coupon_rate p)%R -> (0 < p_freq p)%Z ->
     (a <= round2 (p_par p * p_coupon_rate p / IZR (p_freq p)))%R) /\
  ((p_coupon_rate p <= 0)%R \/ (p_freq p <= 0)%Z \/
   (forall d, In d (p_dates p) -> (d < c)%Z) -> a = 0%R).
Proof.
  intros H Hp Ha.
  destruct (Rlt_dec 0 (p_coupon_rate p)) as [Hc|Hc];
    [destruct (Z.ltb_spec 0 (p_freq p)) as [Hf|Hf]|].
  - rewrite (accrued_coupon _ _ _ _ H Hc Hf) in Ha.
    pose proof (SD_nonneg _ _ _ Hp Hc Hf) as HSD.
    destruct (future_dates (p_dates p) c) as [|next rest] eqn:E.
    + injection Ha as <-; split; [lra|]; split; [|reflexivity].
      intros _ _; rewrite <- round2_0; apply round2_le; exact HSD.
    + injection Ha as <-.
      pose proof (accrual_fraction_bounds c (prev_coupon_of (p_dates p) (p_freq p) next)
                    _ (kdp0_pos (p_dates p) (p_freq p) next)) as [F0 F1].
      split; [|split].
      * rewrite <- round2_0; apply round2_le, Rmult_le_pos; assumption.
      * intros _ _; apply round2_le.
        rewrite <- (Rmult_1_r (p_par p * p_coupon_rate p / IZR (p_freq p))) at 2.
        apply Rmult_le_compat_l; assumption.
      * intros [Hz|[Hz|Hz]]; [lra|lia|].
        assert (Hn : In next (future_dates (p_dates p) c)) by (rewrite E; left; reflexivity).
        apply filter_In in Hn as [Hn Hle]; apply Z.leb_le in Hle.
        specialize (Hz next Hn); lia.
  - rewrite (accrued_zero_coupon _ _ _ _ H (or_intror Hf)) in Ha.
    injection Ha as <-; split; [lra|]; split; [intros _ Hf'; lia | reflexivity].
  - rewrite (accrued_zero_coupon _ _ _ _ H (or_introl (Rnot_lt_le _ _ Hc))) in Ha.
    injection Ha as <-; split; [lra|]; split; [intros Hc'; lra | reflexivity].
Qed.

Lemma accrued_interest_bounds_witness :
  exists a, accrued_interest 20500 "UA4000000001" sample_df = Ok a /\
    (0 <= a)%R /\ (a <= round2 (1000 * (16 / 100) / IZR 2))%R.
Proof.
  destruct (accrued_ok sample_df "UA4000000001" 20500 _ full_bond_2027) as [a Ha].
  exists a; split; [exact Ha|].
  destruct (accrued_interest_bounds sample_df "UA4000000001" 20500 _ a full_bond_2027
              ltac:(simpl; lra) Ha) as [H0 [H1 _]].
  split; [exact H0 | exact (H1 ltac:(simpl; lra) ltac:(simpl; lia))].
Defined.

Lemma future_dates_same dates c1 c2 :
  (c1 <= c2)%Z -> (forall d, In d dates -> ~ (c1 <= d < c2)%Z) ->
  future_dates dates c1 = future_dates dates c2.
Proof.
  intros H12 Hn; unfold future_dates; apply filter_ext_in.
  intros d Hd; specialize (Hn d Hd).
  destruct (Z.leb_spec c1 d); destruct (Z.leb_spec c2 d); lia.
Qed.

(** X6: within one coupon period the accrued interest does not decrease: for a
    bond with a nonnegative par value and reference dates [c1 <= c2] with no
    schedule date [d] such that [c1 <= d < c2], [accrued_interest c1 <=
    accrued_interest c2]. *)
Theorem accrued_interest_mono df isin p c1 c2 a1 a2 :
  _full_coupon_schedule_and_params df isin = Ok p ->
  (0 <= p_par p)%R -> (c1 <= c2)%Z ->
  (forall d, In d (p_dates p) -> ~ (c1 <= d < c2)%Z) ->
  accrued_interest c1 isin df = Ok a1 ->
  accrued_interest c2 isin df = Ok a2 ->
  (a1 <= a2)%R.
Proof.
  intros H Hp H12 Hn Ha1 Ha2.
  destruct (Rlt_dec 0 (p_coupon_rate p)) as [Hc|Hc];
    [destruct (Z.ltb_spec 0 (p_freq p)) as [Hf|Hf]|].
  - rewrite (accrued_coupon _ _ c1 _ H Hc Hf) in Ha1.
    rewrite (accrued_coupon _ _ c2 _ H Hc Hf) in Ha2.
    rewrite (future_dates_same _ _ _ H12 Hn) in Ha1.
    destruct (future_dates (p_dates p) c2) as [|next rest];
      injection Ha1 as <-; injection Ha2 as <-; [lra|].
    apply round2_le, Rmult_le_compat_l; [apply SD_nonneg; assumption|].
    pose proof (kdp0_pos (p_dates p) (p_freq p) next) as HK.
    unfold Rdiv; apply Rmult_le_compat_r.
    + apply Rlt_le, Rinv_0_lt_compat, IZR_lt; lia.
    + apply IZR_le; lia.
  - rewrite (accrued_zero_coupon _ _ c1 _ H (or_intror Hf)) in Ha1.
    rewrite (accrued_zero_coupon _ _ c2 _ H (or_intror Hf)) in Ha2.
    injection Ha1 as <-; injection Ha2 as <-; lra.
  - rewrite (accrued_zero_coupon _ _ c1 _ H (or_introl (Rnot_lt_le _ _ Hc))) in Ha1.
    rewrite (accrued_zero_coupon _ _ c2 _ H (or_introl (Rnot_lt_le _ _ Hc))) in Ha2.
    injection Ha1 as <-; injection Ha2 as <-; lra.
Qed.

Lemma accrued_interest_mono_witness :
  exists a1 a2,
    accrued_interest 20430 "UA4000000001" sample_df = Ok a1 /\
    accrued_interest 20600 "UA4000000001" sample_df = Ok a2 /\ (a1 <= a2)%R.
Proof.
  destruct (accrued_ok sample_df "UA4000000001" 20430 _ full_bond_2027) as [a1 H1].
  destruct (accrued_ok sample_df "UA4000000001" 20600 _ full_bond_2027) as [a2 H2].
  exists a1, a2; split; [exact H1|]; split; [exact H2|].
  apply (accrued_interest_mono sample_df "UA4000000001" _ 20430 20600 a1 a2
           full_bond_2027 ltac:(simpl; lra) ltac:(lia)); [|exact H1 | exact H2].
  simpl; intros d Hd; repeat destruct Hd as [<-|Hd]; try lia; destruct Hd.
Defined.

(** ** Lookup errors *)

(** X7: an ISIN that is not in the directory is reported as [ValueError] with
    the message "ISIN не знайдено у довіднику." by [accrued_interest], both
    forward pricers, [yields_from_price], [coupons_between] and
    [build_cashflow_schedule], and by [trade_outcome] once the sell date is
    after the buy date. *)
Theorem unknown_isin_rejected df isin c yp price s e from_date bd byp sd syp :
  lookup_row df isin = None ->
  accrued_interest c isin df = Err (ValueError isin_not_found) /\
  secondary_price_from_yield c isin yp df = Err (ValueError isin_not_found) /\
  primary_price_from_yield_minfin c isin yp df = Err (ValueError isin_not_found) /\
  yields_from_price c isin price df = Err (ValueError isin_not_found) /\
  coupons_between df isin s e = Err (ValueError isin_not_found) /\
  build_cashflow_schedule df isin from_date = Err (ValueError isin_not_found) /\
  ((bd < sd)%Z -> trade_outcome isin bd byp sd syp df = Err (ValueError isin_not_found)).
Proof.
  intros Hn.
  assert (H : _full_coupon_schedule_and_params df isin = Err (ValueError isin_not_found))
    by (unfold _full_coupon_schedule_and_params; rewrite Hn; reflexivity).
  unfold trade_outcome, accrued_interest, secondary_price_from_yield,
    primary_price_from_yield_minfin, yields_from_price, coupons_between,
    build_cashflow_schedule.
  rewrite H; cbn [bind]; repeat split; try reflexivity.
  intros Hlt; rewrite (proj2 (Z.leb_gt _ _) Hlt); reflexivity.
Qed.

Lemma unknown_isin_rejected_witness :
  lookup_row sample_df "UA0000000000" = None /\
  trade_outcome "UA0000000000" 20300 10 20400 12 sample_df
  = Err (ValueError isin_not_found).
Proof.
  split; [reflexivity|].
  destruct (unknown_isin_rejected sample_df "UA0000000000" 20300 10 900 20300 20400 None
              20300 10 20400 12 eq_refl) as (_ & _ & _ & _ & _ & _ & Ht).
  apply Ht; lia.
Defined.

(** ** What [yields_from_price] reports *)

Lemma yields_zero_coupon df isin c price p :
  _full_coupon_schedule_and_params df isin = Ok p ->
  (c < p_maturity p)%Z ->
  (p_coupon_rate p <= 0)%R \/ (p_freq p <= 0)%Z ->
  yields_from_price c isin price df
  = let y := round2 (sim_yield (p_par p) price (p_maturity p - c)) in
    Ok (mk_yields y "SIM" y "SIM" (p_ccy p)).
Proof.
  intros H Hc Hz; unfold yields_from_price; rewrite H; cbn [bind].
  rewrite (proj2 (Z.leb_gt _ _) Hc).
  replace (Rltb 0 (p_coupon_rate p) && (0 <? p_freq p)%Z) with false; [reflexivity|].
  destruct Hz as [Hz|Hz].
  - rewrite (Rltb_false _ _ Hz); reflexivity.
  - rewrite (proj2 (Z.ltb_ge _ _) Hz), andb_false_r; reflexivity.
Qed.

(** X8: for a bond in the directory, a reference date before maturity and a
    nonzero dirty price, [yields_from_price] always succeeds (its
    [IndexError] branch is never reached); its two yields are equal and both
    formulas are "SIM" or "SIM (fallback)": it never reports "YTM" nor
    "MinFin". *)
Theorem yields_from_price_formulas df isin c price p :
  _full_coupon_schedule_and_params df isin = Ok p ->
  (c < p_maturity p)%Z -> price <> 0%R ->
  exists r, yields_from_price c isin price df = Ok r /\
    Secondary_yield r = Primary_yield r /\
    (Secondary_formula r = "SIM" \/ Secondary_formula r = "SIM (fallback)") /\
    (Primary_formula r = "SIM" \/ Primary_formula r = "SIM (fallback)").
Proof.
  intros H Hc _.
  destruct (Rlt_dec 0 (p_coupon_rate p)) as [Hcr|Hcr];
    [destruct (Z.ltb_spec 0 (p_freq p)) as [Hf|Hf]|].
  - destruct (yields_coupon_fallback df isin c price p H Hc Hcr Hf)
      as [r [Hr [Hpf [Hsf [_ [Hsy _]]]]]].
    exists r; split; [exact Hr|].
    split; [exact Hsy|]; split; [|right; exact Hpf].
    rewrite Hsf; destruct (short_or_last _ _ _); [left | right]; reflexivity.
  - rewrite (yields_zero_coupon _ _ _ _ _ H Hc (or_intror Hf)); cbn zeta.
    eexists; split; [reflexivity|]; cbn; auto.
  - rewrite (yields_zero_coupon _ _ _ _ _ H Hc (or_introl (Rnot_lt_le _ _ Hcr))); cbn zeta.
    eexists; split; [reflexivity|]; cbn; auto.
Qed.

Lemma yields_from_price_formulas_witness :
  exists r, yields_from_price 20500 "UA4000000001" 1000 sample_df = Ok r /\
    Secondary_yield r = Primary_yield r /\
    (Secondary_formula r = "SIM" \/ Secondary_formula r = "SIM (fallback)") /\
    (Primary_formula r = "SIM" \/ Primary_formula r = "SIM (fallback)").
Proof.
  exact (yields_from_price_formulas sample_df "UA4000000001" 20500 1000 _ full_bond_2027
           ltac:(simpl; lia) ltac:(lra)).
Defined.

(** ** The SIM yield inverts the SIM price *)

Lemma sim_yield_of_price A x days :
  A <> 0%R -> (1 + x * (IZR days / 365))%R <> 0%R -> days <> 0%Z ->
  sim_yield A (sim_price A x days) days = (x * 100)%R.
Proof.
  intros HA Hq Hd.
  assert (Hd' : IZR days <> 0%R) by (apply not_0_IZR; exact Hd).
  unfold sim_yield, sim_price.
  replace (A / (A / (1 + x * (IZR days / 365))))%R with (1 + x * (IZR days / 365))%R
    by (field; repeat split; try assumption; intro; apply Hq; lra).
  field; exact Hd'.
Qed.

(** X9: the SIM yield formula of [yields_from_price] is the exact inverse of
    the SIM price formula.  Before maturity, for [days = maturity - calc_date]
    and a yield [y] percent with [1 + y/100 * days/365 <> 0], a zero-coupon bond
    priced at [par / (1 + y/100 * days/365)] gets [round(y, 2)] as both yields
    with formula "SIM", and a coupon bond priced at
    [(par + SD) / (1 + y/100 * days/365)] gets [round(y, 2)] as both yields. *)
Theorem sim_round_trip df isin c y p :
  _full_coupon_schedule_and_params df isin = Ok p ->
  (c < p_maturity p)%Z ->
  let days := (p_maturity p - c)%Z in
  (1 + y / 100 * (IZR days / 365))%R <> 0%R ->
  (((p_coupon_rate p <= 0)%R \/ (p_freq p <= 0)%Z) -> p_par p <> 0%R ->
     exists r, yields_from_price c isin (sim_price (p_par p) (y / 100) days) df = Ok r /\
       Secondary_yield r = round2 y /\ Primary_yield r = round2 y /\
       Secondary_formula r = "SIM" /\ Primary_formula r = "SIM") /\
  ((0 < p_coupon_rate p)%R -> (0 < p_freq p)%Z ->
   let SD := (p_par p * p_coupon_rate p / IZR (p_freq p))%R in
   (p_par p + SD)%R <> 0%R ->
     exists r, yields_from_price c isin (sim_price (p_par p + SD) (y / 100) days) df = Ok r /\
       Secondary_yield r = round2 y /\ Primary_yield r = round2 y).
Proof.
  intros H Hc days Hq; split.
  - intros Hz Hp.
    rewrite (yields_zero_coupon _ _ _ _ _ H Hc Hz); cbn zeta.
    fold days; rewrite sim_yield_of_price by (assumption || unfold days; lia).
    replace (y / 100 * 100)%R with y by field.
    eexists; repeat split; reflexivity.
  - intros Hcr Hf SD HA.
    destruct (yields_coupon_fallback df isin c (sim_price (p_par p + SD) (y / 100) days)
                p H Hc Hcr Hf) as [r [Hr [_ [_ [Hpy [Hsy _]]]]]].
    exists r; split; [exact Hr|].
    fold SD days in Hpy.
    rewrite sim_yield_of_price in Hpy by (assumption || unfold days; lia).
    replace (y / 100 * 100)%R with y in Hpy by field.
    split; [rewrite Hsy|]; exact Hpy.
Qed.

Lemma sim_round_trip_witness :
  exists r,
    yields_from_price 20500 "UA4000000003" (sim_price 1000 (10 / 100) (20970 - 20500))
      sample_df = Ok r /\
    Secondary_yield r = round2 10 /\ Primary_yield r = round2 10 /\
    Secondary_formula r = "SIM" /\ Primary_formula r = "SIM".
Proof.
  destruct (sim_round_trip sample_df "UA4000000003" 20500 10 _ full_bill_2027
              ltac:(simpl; lia) ltac:(simpl; rewrite ?minus_IZR; lra)) as [H0 _].
  exact (H0 ltac:(simpl; left; lra) ltac:(simpl; lra)).
Defined.

(** ** The outcome of a trade *)

Lemma Rleb_true_iff x y : Rleb x y = true <-> (x <= y)%R.
Proof.
  unfold Rleb; destruct (Rle_dec x y); split; intros; auto; discriminate.
Qed.

(** X10: a successful [trade_outcome] (with a nonzero buy price) holds the bond
    for [Days_held = sell_date - buy_date > 0] days, so [Profit_ann_pct] is
    always set, to [round(Profit_abs / buy_dirty * 365 / Days_held * 100, 2)].
    [Coupons_received] is in strictly increasing date order; it is empty for a
    zero-coupon bond, and for a coupon bond its entries are exactly the
    schedule dates [d] with [buy_date < d <= sell_date], each paired with
    [round(par * couponRate / freq, 2)]. *)
Theorem trade_outcome_coupons isin bd byp sd syp df t p :
  _full_coupon_schedule_and_params df isin = Ok p ->
  trade_outcome isin bd byp sd syp df = Ok t ->
  Buy_price_dirty t <> 0%R ->
  Days_held t = (sd - bd)%Z /\ (0 < Days_held t)%Z /\
  Profit_ann_pct t
  = Some (round2 (Profit_abs t / Buy_price_dirty t * (365 / IZR (Days_held t)) * 100)) /\
  Sorted Z.lt (map fst (Coupons_received t)) /\
  ((p_coupon_rate p <= 0)%R \/ (p_freq p <= 0)%Z -> Coupons_received t = []) /\
  ((0 < p_coupon_rate p)%R -> (0 < p_freq p)%Z ->
   forall d a, In (d, a) (Coupons_received t) <->
     In d (p_dates p) /\ (bd < d <= sd)%Z /\
     a = round2 (p_par p * p_coupon_rate p / IZR (p_freq p))).
Proof.
  intros H Ht _.
  destruct (full_dates_ok _ _ _ H) as [Hs _].
  unfold trade_outcome in Ht.
  destruct (Z.leb_spec sd bd) as [Hle|Hlt]; [discriminate|].
  destruct (secondary_price_from_yield bd isin byp df) as [b|]; cbn [bind] in Ht;
    [|discriminate].
  destruct (secondary_price_from_yield sd isin syp df) as [s|]; cbn [bind] in Ht;
    [|discriminate].
  destruct (coupons_between df isin bd sd) as [c|] eqn:Ec; cbn [bind] in Ht;
    [|discriminate].
  injection Ht as <-; cbn [Days_held Profit_ann_pct Profit_abs Buy_price_dirty
                           Coupons_received].
  assert (Hpos : (0 < sd - bd)%Z) by lia.
  rewrite (proj2 (Z.ltb_lt _ _) Hpos).
  split; [reflexivity|]; split; [lia|]; split; [reflexivity|].
  unfold coupons_between in Ec; rewrite H in Ec; cbn [bind] in Ec.
  destruct (Rleb (p_coupon_rate p) 0 || (p_freq p <=? 0)%Z) eqn:Ez;
    injection Ec as <-; cbn [fst].
  - apply orb_true_iff in Ez.
    split; [constructor|]; split; [reflexivity|].
    intros Hc Hf; exfalso; destruct Ez as [Ez|Ez];
      [apply Rleb_true_iff in Ez; lra | apply Z.leb_le in Ez; lia].
  - apply orb_false_iff in Ez as [Ez1 Ez2].
    split; [|split].
    + rewrite map_map; cbn [fst]; rewrite map_id; apply sorted_filter; exact Hs.
    + intros [Hz|Hz]; exfalso;
        [rewrite (Rleb_true _ _ Hz) in Ez1 | rewrite (proj2 (Z.leb_le _ _) Hz) in Ez2];
        discriminate.
    + intros _ _ d a; rewrite in_map_iff; split.
      * intros [x [Ex Hx]]; injection Ex as -> ->.
        apply filter_In in Hx as [Hx Hw]; apply andb_prop in Hw as [W1 W2].
        apply Z.ltb_lt in W1; apply Z.leb_le in W2; auto.
      * intros [Hd [Hw ->]]; exists d; split; [reflexivity|].
        apply filter_In; split; [exact Hd|].
        apply andb_true_intro; split; [apply Z.ltb_lt | apply Z.leb_le]; lia.
Qed.

Lemma trade_bill_ok :
  exists t, trade_outcome "UA4000000003" 20300 10 20800 12 sample_df = Ok t /\
    Buy_price_dirty t <> 0%R.
Proof.
  unfold trade_outcome.
  replace (20800 <=? 20300)%Z with false by reflexivity; cbn iota.
  rewrite (secondary_zero_coupon _ _ _ _ _ full_bill_2027) by (simpl; lra || lia).
  rewrite (secondary_zero_coupon _ _ _ _ _ full_bill_2027) by (simpl; lra || lia).
  unfold coupons_between; rewrite full_bill_2027; cbn [bind p_coupon_rate p_ccy].
  rewrite (Rleb_true 0 0) by lra; cbn [bind orb].
  eexists; split; [reflexivity|]; cbn [Buy_price_dirty pr_dirty].
  match goal with |- round2 ?t <> 0%R =>
    pose proof (round2_close t) as Hc; assert (800 <= t)%R;
    [|(unfold Rabs in Hc; destruct (Rcase_abs _); lra)] end.
  unfold sim_price; cbn [p_par p_maturity]; rewrite minus_IZR.
  match goal with |- (_ <= ?n / ?d)%R =>
    apply (Rmult_le_reg_r d); [lra|];
    replace (n / d * d)%R with n by (field; lra); lra end.
Qed.

Lemma trade_outcome_coupons_witness :
  exists t, trade_outcome "UA4000000003" 20300 10 20800 12 sample_df = Ok t /\
    Days_held t = 500%Z /\ Coupons_received t = [] /\
    Profit_ann_pct t
    = Some (round2 (Profit_abs t / Buy_price_dirty t * (365 / IZR (Days_held t)) * 100)).
Proof.
  destruct trade_bill_ok as [t [Ht Hb]].
  destruct (trade_outcome_coupons "UA4000000003" 20300 10 20800 12 sample_df t _
              full_bill_2027 Ht Hb) as (H1 & _ & H3 & _ & H5 & _).
  exists t; split; [exact Ht|]; split; [rewrite H1; reflexivity|].
  split; [apply H5; simpl; lra | exact H3].
Defined.

(** ** Clean price, dirty price and accrued interest *)

Lemma round2_is_cents x : exists k, round2 x = (IZR k / 100)%R.
Proof. unfold round2; eexists; reflexivity. Qed.

Lemma accrued_cents df isin c a :
  accrued_interest c isin df = Ok a -> exists k, a = (IZR k / 100)%R.
Proof.
  unfold accrued_interest; destruct (_full_coupon_schedule_and_params df isin) as [p|];
    cbn [bind]; [|discriminate].
  destruct (_ || _)%bool; [intros E; injection E as <-; exists 0%Z; lra|].
  destruct (future_dates _ _); intros E; injection E as <-;
    [exists 0%Z; lra | apply round2_is_cents].
Qed.

Lemma round2_cents_diff x a :
  (exists k, x = (IZR k / 100)%R) -> (exists k, a = (IZR k / 100)%R) ->
  round2 (x - a) = (x - a)%R.
Proof.
  intros [k1 ->] [k2 ->].
  replace (IZR k1 / 100 - IZR k2 / 100)%R with (IZR (k1 - k2) / 100)%R
    by (rewrite minus_IZR; field).
  apply round2_cents.
Qed.

Lemma round2_shift_close x a :
  (Rabs (round2 (x - a) - (round2 x - a)) <= 1 / 100)%R.
Proof.
  pose proof (round2_close (x - a)) as H1; pose proof (round2_close x) as H2.
  unfold Rabs in *; repeat destruct (Rcase_abs _); lra.
Qed.

(** X11: every price returned by [secondary_price_from_yield] or
    [primary_price_from_yield_minfin] has a clean price within one cent of
    [dirty - accrued], and exactly [dirty - accrued] whenever the formula is
    not "SIM" (the "SIM" branch of a coupon bond rounds [price - AI] and
    [price] separately). *)
Theorem clean_price_consistent df isin c yp pr :
  secondary_price_from_yield c isin yp df = Ok pr \/
  primary_price_from_yield_minfin c isin yp df = Ok pr ->
  (Rabs (pr_clean pr - (pr_dirty pr - pr_ai pr)) <= 1 / 100)%R /\
  (pr_formula pr <> "SIM" -> pr_clean pr = (pr_dirty pr - pr_ai pr)%R).
Proof.
  assert (Z0 : forall x : R, x = (x - 0)%R -> (Rabs (x - (x - 0)) <= 1 / 100)%R /\
                                      (x = x - 0)%R).
  { intros x _; replace (x - (x - 0))%R with 0%R by ring; rewrite Rabs_R0; lra. }
  assert (Zm : (Rabs (0 - (0 - 0)) <= 1 / 100)%R /\ (0 = 0 - 0)%R).
  { replace (0 - (0 - 0))%R with 0%R by ring; rewrite Rabs_R0; lra. }
  assert (Cents : forall d a, (exists k, d = (IZR k / 100)%R) ->
                    (exists k, a = (IZR k / 100)%R) ->
                    (Rabs (round2 (d - a) - (d - a)) <= 1 / 100)%R /\
                    round2 (d - a) = (d - a)%R).
  { intros d a Hd Ha; rewrite (round2_cents_diff d a Hd Ha).
    replace (d - a - (d - a))%R with 0%R by ring; rewrite Rabs_R0; lra. }
  intros Hr.
  destruct (_full_coupon_schedule_and_params df isin) as [p|err] eqn:H;
    [|destruct Hr as [Hr|Hr];
      [unfold secondary_price_from_yield in Hr | unfold primary_price_from_yield_minfin in Hr];
      rewrite H in Hr; discriminate].
  destruct (Z.ltb_spec c (p_maturity p)) as [Hc|Hc].
  2:{ destruct Hr as [Hr|Hr];
      [rewrite (secondary_matured _ _ _ _ _ H Hc) in Hr
      | rewrite (primary_matured _ _ _ _ _ H Hc) in Hr];
      injection Hr as <-; cbn [pr_clean pr_dirty pr_ai pr_formula];
      (split; [apply Zm | intros _; apply Zm]). }
  destruct (accrued_ok df isin c p H) as [a Ha].
  pose proof (accrued_cents _ _ _ _ Ha) as Hac.
  destruct (Rlt_dec 0 (p_coupon_rate p)) as [Hcr|Hcr];
    [destruct (Z.ltb_spec 0 (p_freq p)) as [Hf|Hf]|].
  - destruct Hr as [Hr|Hr].
    + rewrite (secondary_coupon _ _ _ _ _ H Hc Hcr Hf) in Hr; cbn zeta in Hr.
      destruct (short_or_last _ _ _); rewrite Ha in Hr; cbn [bind] in Hr;
        injection Hr as <-; cbn [pr_clean pr_dirty pr_ai pr_formula].
      * split; [apply round2_shift_close | intros Hn; contradiction Hn; reflexivity].
      * match goal with |- (Rabs (round2 (round2 ?t - _) - _) <= _)%R /\ _ =>
   destruct (Cents (round2 t) a (round2_is_cents t) Hac) as [C1 C2] end.
        split; [exact C1 | intros _; exact C2].
    + rewrite (primary_coupon _ _ _ _ _ H Hc Hcr Hf) in Hr; cbn zeta in Hr.
      destruct (future_dates _ _).
      * injection Hr as <-; cbn [pr_clean pr_dirty pr_ai pr_formula];
        split; [apply Zm | intros _; apply Zm].
      * rewrite Ha in Hr; cbn [bind] in Hr; injection Hr as <-;
          cbn [pr_clean pr_dirty pr_ai pr_formula].
        match goal with |- (Rabs (round2 (round2 ?t - _) - _) <= _)%R /\ _ =>
          destruct (Cents (round2 t) a (round2_is_cents t) Hac) as [C1 C2] end.
        split; [exact C1 | intros _; exact C2].
  - destruct Hr as [Hr|Hr];
      [rewrite (secondary_zero_coupon _ _ _ _ _ H Hc (or_intror Hf)) in Hr
      | rewrite (primary_zero_coupon _ _ _ _ _ H Hc (or_intror Hf)) in Hr];
      cbn zeta in Hr; injection Hr as <-; cbn [pr_clean pr_dirty pr_ai pr_formula];
      (split; [apply Z0 | intros _; apply Z0]); ring.
  - destruct Hr as [Hr|Hr];
      [rewrite (secondary_zero_coupon _ _ _ _ _ H Hc (or_introl (Rnot_lt_le _ _ Hcr))) in Hr
      | rewrite (primary_zero_coupon _ _ _ _ _ H Hc (or_introl (Rnot_lt_le _ _ Hcr))) in Hr];
      cbn zeta in Hr; injection Hr as <-; cbn [pr_clean pr_dirty pr_ai pr_formula];
      (split; [apply Z0 | intros _; apply Z0]); ring.
Qed.

Lemma secondary_ok df isin c yp p :
  _full_coupon_schedule_and_params df isin = Ok p ->
  exists pr, secondary_price_from_yield c isin yp df = Ok pr.
Proof.
  intros H; destruct (accrued_ok df isin c p H) as [a Ha].
  unfold secondary_price_from_yield; rewrite H; cbn [bind].
  destruct (_ <=? _)%Z; [eauto|]; destruct (negb _); [eauto|].
  destruct (short_or_last _ _ _); rewrite Ha; cbn [bind]; eauto.
Qed.

Lemma clean_price_consistent_witness :
  exists pr, secondary_price_from_yield 20500 "UA4000000001" 16 sample_df = Ok pr /\
    (Rabs (pr_clean pr - (pr_dirty pr - pr_ai pr)) <= 1 / 100)%R /\
    (pr_formula pr <> "SIM" -> pr_clean pr = (pr_dirty pr - pr_ai pr)%R).
Proof.
  destruct (secondary_ok sample_df "UA4000000001" 20500 16 _ full_bond_2027) as [pr E].
  exists pr; split; [exact E|].
  exact (clean_price_consistent sample_df "UA4000000001" 20500 16 pr (or_introl E)).
Defined.

(** ** Accuracy of the root finder *)

Lemma midpoint_near lo hi r :
  (lo <= r <= hi)%R -> (Rabs (/ 2 * (lo + hi) - r) <= (hi - lo) / 2)%R.
Proof. intros H; unfold Rabs; destruct (Rcase_abs _); lra. Qed.

Lemma root_between func lo hi :
  continuity func -> (lo < hi)%R -> (func lo * func hi < 0)%R ->
  exists r, (lo <= r <= hi)%R /\ func r = 0%R.
Proof.
  intros Hc Hlt Hs.
  destruct (IVT_cor func lo hi Hc ltac:(lra) ltac:(lra)) as [r Hr]; exists r; exact Hr.
Qed.

Section Bisection.
Variables (func : R -> R) (tol : R).
Hypothesis func_continuous : continuity func.
Hypothesis tol_pos : (0 < tol)%R.

Lemma bisect_loop_accuracy n :
  forall lo hi, (lo < hi)%R -> (func lo * func hi < 0)%R ->
  let x := fst (bisect_loop func tol n lo hi (func lo) (func hi)) in
  (Rabs (func x) < tol)%R \/
  exists r, (lo <= r <= hi)%R /\ func r = 0%R /\
            (Rabs (x - r) <= Rmax tol ((hi - lo) / 2 ^ n) / 2)%R.
Proof.
  induction n as [|n IH]; intros lo hi Hlt Hs x.
  - right; destruct (root_between func lo hi func_continuous Hlt Hs) as [r [Hr Hz]].
    exists r; split; [exact Hr|]; split; [exact Hz|].
    unfold x; simpl; pose proof (midpoint_near lo hi r Hr).
    pose proof (Rmax_r tol ((hi - lo) / 1)); unfold Rdiv in *; lra.
  - unfold x; clear x; simpl; unfold tbind, call.
    set (mid := (/ 2 * (lo + hi))%R).
    destruct (Rlt_dec (Rabs (func mid)) tol) as [Ha|Ha].
    + rewrite (Rltb_true _ _ Ha); simpl; left; exact Ha.
    + rewrite (Rltb_false _ _ (Rnot_lt_le _ _ Ha)); simpl orb.
      assert (Hnz : func mid <> 0%R)
        by (intros E; rewrite E, Rabs_R0 in Ha; lra).
      assert (Hw : forall r, (lo <= r <= hi)%R -> func r = 0%R ->
                   (Rabs (mid - r) <= Rmax tol ((hi - lo) / 2 ^ S n) / 2)%R ->
                   exists r', (lo <= r' <= hi)%R /\ func r' = 0%R /\
                     (Rabs (mid - r') <= Rmax tol ((hi - lo) / 2 ^ S n) / 2)%R)
        by eauto.
      destruct (Rlt_dec (hi - lo) tol) as [Hd|Hd].
      * rewrite (Rltb_true _ _ Hd); simpl; right.
        destruct (root_between func lo hi func_continuous Hlt Hs) as [r [Hr Hz]].
        apply (Hw r Hr Hz).
        pose proof (midpoint_near lo hi r Hr) as M; fold mid in M.
        pose proof (Rmax_l tol ((hi - lo) / 2 ^ S n)) as M2.
        match goal with |- (_ <= ?m / 2)%R => change m with (Rmax tol ((hi - lo) / 2 ^ S n)) end.
        lra.
      * rewrite (Rltb_false _ _ (Rnot_lt_le _ _ Hd)).
        assert (Hpow : forall a, (a / 2 / 2 ^ n = a / (2 * 2 ^ n))%R)
          by (intros a; field; apply pow_nonzero; lra).
        destruct (Rlt_dec (func lo * func mid) 0) as [Hm|Hm].
        -- rewrite (Rltb_true _ _ Hm).
           pose proof (IH lo mid ltac:(unfold mid; lra) Hm) as IHm; cbv zeta in IHm.
           destruct (bisect_loop func tol n lo mid (func lo) (func mid)) as [b l2].
           simpl in IHm |- *.
           destruct IHm as [H|[r [Hr [Hz Hn]]]]; [left; exact H | right].
           exists r; split; [unfold mid in Hr; lra|]; split; [exact Hz|].
           replace (mid - lo)%R with ((hi - lo) / 2)%R in Hn by (unfold mid; field).
           rewrite Hpow in Hn; exact Hn.
        -- rewrite (Rltb_false _ _ (Rnot_lt_le _ _ Hm)).
           assert (Hm' : (func mid * func hi < 0)%R).
           { assert (0 < func lo * func mid)%R.
             { destruct (Rle_lt_or_eq_dec 0 (func lo * func mid)) as [P|P];
                 [lra | exact P |].
               symmetry in P; apply Rmult_integral in P as [P|P];
                 [rewrite P in Hs; lra | contradiction]. }
             nra. }
           pose proof (IH mid hi ltac:(unfold mid; lra) Hm') as IHm; cbv zeta in IHm.
           destruct (bisect_loop func tol n mid hi (func mid) (func hi)) as [b l2].
           simpl in IHm |- *.
           destruct IHm as [H|[r [Hr [Hz Hn]]]]; [left; exact H | right].
           exists r; split; [unfold mid in Hr; lra|]; split; [exact Hz|].
           replace (hi - mid)%R with ((hi - lo) / 2)%R in Hn by (unfold mid; field).
           rewrite Hpow in Hn; exact Hn.
Qed.

End Bisection.

Lemma bisect_accuracy func tol lo hi maxiter :
  continuity func -> (0 < tol)%R -> (lo < hi)%R -> (func lo * func hi <= 0)%R ->
  let x := fst (_bisect func lo hi (Some (func lo)) (Some (func hi)) tol maxiter) in
  (Rabs (func x) < tol)%R \/
  exists r, (lo <= r <= hi)%R /\ func r = 0%R /\
            (Rabs (x - r) <= Rmax tol ((hi - lo) / 2 ^ Z.to_nat maxiter) / 2)%R.
Proof.
  intros Hc Ht Hlt Hs x.
  assert (H0 : forall r, (0 <= Rmax tol ((hi - lo) / 2 ^ Z.to_nat maxiter) / 2)%R ->
                 (Rabs (r - r) <= Rmax tol ((hi - lo) / 2 ^ Z.to_nat maxiter) / 2)%R)
    by (intros r Hr; rewrite Rminus_diag, Rabs_R0; exact Hr).
  assert (Hm : (0 <= Rmax tol ((hi - lo) / 2 ^ Z.to_nat maxiter) / 2)%R)
    by (pose proof (Rmax_l tol ((hi - lo) / 2 ^ Z.to_nat maxiter)); lra).
  unfold x, _bisect, tbind, tret; simpl.
  destruct (Req_dec_T (func lo) 0) as [El|El].
  - rewrite (Reqb_true _ _ El); simpl; right; exists lo.
    split; [lra|]; split; [exact El | apply H0, Hm].
  - rewrite (Reqb_false _ _ El).
    destruct (Req_dec_T (func hi) 0) as [Eh|Eh].
    + rewrite (Reqb_true _ _ Eh); simpl; right; exists hi.
      split; [lra|]; split; [exact Eh | apply H0, Hm].
    + rewrite (Reqb_false _ _ Eh).
      assert (Hneg : (func lo * func hi < 0)%R).
      { destruct (Rle_lt_or_eq_dec _ _ Hs) as [P|P]; [exact P|].
        apply Rmult_integral in P as [P|P]; contradiction. }
      pose proof (bisect_loop_accuracy func tol Hc Ht (Z.to_nat maxiter) lo hi Hlt Hneg)
        as Hb; cbv zeta in Hb.
      destruct (bisect_loop func tol (Z.to_nat maxiter) lo hi (func lo) (func hi)) as [b l].
      simpl in Hb |- *; exact Hb.
Qed.

(** X12: for a continuous [func], a positive tolerance and a starting bracket
    [lo < hi] with [0 < hi], [_solve_root] widens [hi] to [hi' = hi * 1.5^k]
    ([k <= 25]) and its result [x] is either the midpoint of [lo, hi'] when no
    sign change was found, or a point with [|func x| < tol], or within
    [max(tol, (hi' - lo) / 2^maxiter) / 2] of a root of [func] in [lo, hi']. *)
Theorem solve_root_accuracy func lo hi tol maxiter :
  continuity func -> (0 < tol)%R -> (lo < hi)%R -> (0 < hi)%R ->
  exists k, (k <= 25)%nat /\
    let hi' := (hi * (3 / 2) ^ k)%R in
    let x := fst (_solve_root func lo hi tol maxiter) in
    ((0 < func lo * func hi')%R /\ x = (/ 2 * (lo + hi'))%R) \/
    (Rabs (func x) < tol)%R \/
    (exists r, (lo <= r <= hi')%R /\ func r = 0%R /\
       (Rabs (x - r) <= Rmax tol ((hi' - lo) / 2 ^ Z.to_nat maxiter) / 2)%R).
Proof.
  intros Hc Ht Hlt Hhi.
  destruct (bracket_spec func lo hi (3 / 2) 25) as [k [Hk [Hf _]]].
  exists k; split; [exact Hk|]; intros hi' x.
  assert (Hhi' : (lo < hi')%R).
  { unfold hi'; pose proof (pow_R1_Rle (3 / 2) k ltac:(lra)); nra. }
  unfold x, _solve_root, tbind.
  destruct (_bracket func lo hi (3 / 2) 25) as [b l] eqn:Eb.
  simpl in Hf; subst b; fold hi'; cbv iota beta.
  destruct (Rlt_dec 0 (func lo * func hi')) as [Hp|Hp].
  - rewrite (Rltb_true _ _ Hp); simpl; left; split; [exact Hp | reflexivity].
  - rewrite (Rltb_false _ _ (Rnot_lt_le _ _ Hp)).
    pose proof (bisect_accuracy func tol lo hi' maxiter Hc Ht Hhi' (Rnot_lt_le _ _ Hp))
      as Hb; cbv zeta in Hb.
    destruct (_bisect func lo hi' (Some (func lo)) (Some (func hi')) tol maxiter) as [y l2].
    simpl in Hb |- *; right; exact Hb.
Qed.

Lemma solve_root_accuracy_witness :
  continuity (fun y => y - 1)%R /\
  exists k, (k <= 25)%nat /\
    let hi' := (5 * (3 / 2) ^ k)%R in
    let x := fst (_solve_root (fun y => y - 1)%R 0 5 default_tol 200) in
    ((0 < (0 - 1) * (hi' - 1))%R /\ x = (/ 2 * (0 + hi'))%R) \/
    (Rabs (x - 1) < default_tol)%R \/
    (exists r, (0 <= r <= hi')%R /\ (r - 1 = 0)%R /\
       (Rabs (x - r) <= Rmax default_tol ((hi' - 0) / 2 ^ Z.to_nat 200) / 2)%R).
Proof.
  assert (Hc : continuity (fun y => y - 1)%R).
  { change (continuity (minus_fct id (fct_cte 1))).
    apply continuity_minus;
      [apply derivable_continuous, derivable_id
      | apply continuity_const; intros ? ?; reflexivity]. }
  split; [exact Hc|].
  exact (solve_root_accuracy (fun y => y - 1)%R 0 5 default_tol 200 Hc
           ltac:(unfold default_tol; apply Rinv_0_lt_compat, IZR_lt; reflexivity)
           ltac:(lra) ltac:(lra)).
Defined.
